(** * Pseudo-random generator supply of Beast's websocket layer

    A shallow embedding of
    [include/boost/beast/websocket/detail/impl/prng.ipp]: the lazily
    computed seed words ([prng_seed]), the per-class nonce counters, the
    pooled classes of [make_prng_no_tls] with their intrusive free list
    ([prng_pool]), and the thread-local classes of [make_prng_tls].

    Conventions.  Unsigned machine integers are values of [Z] with the
    wrap-around written out ([wrap32], [wrap64]).  The signed reference
    count is an [int]: stepping it outside [INT_MIN .. INT_MAX] has no
    defined behaviour, which the model reports as [Undefined].  Objects
    live in a memory that is a list indexed by address; an address is the
    position of the object in that list. *)

From stdpp Require Import prelude relations gmap.
From Stdlib Require Import ZArith Lia.

Local Open Scope Z_scope.

(** ** Machine integers *)

Definition wrap32 (z : Z) : Z := z mod 2 ^ 32.
Definition wrap64 (z : Z) : Z := z mod 2 ^ 64.

Definition INT_MAX : Z := 2 ^ 31 - 1.
Definition INT_MIN : Z := - 2 ^ 31.

(** ** Seed words *)

(** [struct data { std::uint32_t v[8]; }] of [prng_seed]: exactly eight
    words, [v0] standing for [v[0]] and so on. *)
Record data := Data {
  v0 : Z; v1 : Z; v2 : Z; v3 : Z; v4 : Z; v5 : Z; v6 : Z; v7 : Z
}.

(** A [std::seed_seq] is the sequence of 32-bit values it stores; the
    constructor from an initializer list reduces each element modulo
    [2^32]. *)
Definition seed_seq := list Z.

Definition seed_seq_init (il : list Z) : seed_seq := wrap32 <$> il.

(** ** What the platform provides

    The collaborators that are not part of the file: the entropy source,
    the standard seed-sequence scrambler, the aligned allocator and the
    ChaCha stream cipher of [boost/beast/core/detail/chacha.hpp].

    - [random_device k] is the value of the [k]-th draw ever made from a
      [std::random_device] by this process;
    - [seed_seq_generate ss] is the content of [v] after
      [ss.generate(v, v+8)];
    - [aligned_alloc k] tells whether the [k]-th call of
      [boost::alignment::aligned_alloc] by this process returns a block
      ([true]) or a null pointer ([false]);
    - [chacha_ctor pv stream] is [chacha<20>(pv, stream)] and
      [chacha_call] its [operator()]. *)
Class Platform := {
  random_device : nat → Z;
  seed_seq_generate : seed_seq → data;
  aligned_alloc : nat → bool;
  chacha : Type;
  chacha_ctor : data → Z → chacha;
  chacha_call : chacha → Z * chacha
}.

(** A platform to evaluate the definitions on: entropy [k ↦ 7k+3], a
    scrambler that pads the stored values with zeros up to eight words,
    an allocator that fails on its call number 2 only, and a
    cipher stand-in that remembers its inputs and counts its calls. *)
Definition demo_generate (ss : seed_seq) : data :=
  let w (i : nat) := wrap32 (nth i ss 0) in
  Data (w 0%nat) (w 1%nat) (w 2%nat) (w 3%nat)
       (w 4%nat) (w 5%nat) (w 6%nat) (w 7%nat).

Definition demo_platform : Platform := {|
  random_device := λ k, 7 * Z.of_nat k + 3;
  seed_seq_generate := demo_generate;
  aligned_alloc := λ k, negb (Nat.eqb k 2);
  chacha := data * Z * Z;
  chacha_ctor := λ pv stream, (pv, stream, 0);
  chacha_call := λ '(pv, stream, i),
    (wrap32 (v0 pv + v7 pv + stream + i), (pv, stream, i + 1))
|}.

(** ** Objects with static storage duration *)

(** The four generator classes: a strategy (pooled, in
    [make_prng_no_tls]; thread-local, in [make_prng_tls]) and a variant.
    Each class has a constructor whose lambda declares a
    [static std::atomic<std::uint64_t> nonce{0}] of its own. *)
Inductive strategy := NoTls | Tls.
Inductive variant := Fast | Secure.

Definition prng_class : Type := strategy * variant.

#[global] Instance strategy_eq_dec : EqDecision strategy.
Proof. solve_decision. Defined.
#[global] Instance variant_eq_dec : EqDecision variant.
Proof. solve_decision. Defined.

(** [seed_d] is the function-local [static data const d] of [prng_seed],
    [None] until its initialisation has run.  The four [nonce_*] are the
    function-local atomics.  [rd_draws] and [alloc_calls] count the draws
    from the entropy source and the calls of the allocator so far. *)
Record statics := Statics {
  seed_d : option data;
  nonce_no_tls_fast : Z;
  nonce_no_tls_secure : Z;
  nonce_tls_fast : Z;
  nonce_tls_secure : Z;
  rd_draws : nat;
  alloc_calls : nat
}.

(** The process before any of the functions has been called. *)
Definition statics0 : statics := Statics None 0 0 0 0 0%nat 0%nat.

Definition set_seed_d (d : data) (s : statics) : statics :=
  Statics (Some d) (nonce_no_tls_fast s) (nonce_no_tls_secure s)
          (nonce_tls_fast s) (nonce_tls_secure s) (rd_draws s) (alloc_calls s).

Definition set_rd_draws (k : nat) (s : statics) : statics :=
  Statics (seed_d s) (nonce_no_tls_fast s) (nonce_no_tls_secure s)
          (nonce_tls_fast s) (nonce_tls_secure s) k (alloc_calls s).

Definition set_alloc_calls (k : nat) (s : statics) : statics :=
  Statics (seed_d s) (nonce_no_tls_fast s) (nonce_no_tls_secure s)
          (nonce_tls_fast s) (nonce_tls_secure s) (rd_draws s) k.

Definition nonce (c : prng_class) (s : statics) : Z :=
  match c with
  | (NoTls, Fast) => nonce_no_tls_fast s
  | (NoTls, Secure) => nonce_no_tls_secure s
  | (Tls, Fast) => nonce_tls_fast s
  | (Tls, Secure) => nonce_tls_secure s
  end.

Definition set_nonce (c : prng_class) (n : Z) (s : statics) : statics :=
  match c with
  | (NoTls, Fast) =>
      Statics (seed_d s) n (nonce_no_tls_secure s)
              (nonce_tls_fast s) (nonce_tls_secure s) (rd_draws s) (alloc_calls s)
  | (NoTls, Secure) =>
      Statics (seed_d s) (nonce_no_tls_fast s) n
              (nonce_tls_fast s) (nonce_tls_secure s) (rd_draws s) (alloc_calls s)
  | (Tls, Fast) =>
      Statics (seed_d s) (nonce_no_tls_fast s) (nonce_no_tls_secure s)
              n (nonce_tls_secure s) (rd_draws s) (alloc_calls s)
  | (Tls, Secure) =>
      Statics (seed_d s) (nonce_no_tls_fast s) (nonce_no_tls_secure s)
              (nonce_tls_fast s) n (rd_draws s) (alloc_calls s)
  end.

(** [++nonce] on the atomic of class [c]: the counter is unsigned and 64
    bits wide, the expression yields the incremented value. *)
Definition incr_nonce (c : prng_class) (s : statics) : Z * statics :=
  let n := wrap64 (nonce c s + 1) in (n, set_nonce c n s).

(** ** Seed derivation *)

Section seed.
Context `{Platform}.

(** [data::data(std::seed_seq* pss)]. *)
Definition data_ctor (pss : option seed_seq) (s : statics) : data * statics :=
  match pss with
  | None =>
      let k := rd_draws s in
      let g (i : nat) := random_device (k + i)%nat in
      let ss := seed_seq_init [g 0%nat; g 1%nat; g 2%nat; g 3%nat;
                               g 4%nat; g 5%nat; g 6%nat; g 7%nat] in
      (seed_seq_generate ss, set_rd_draws (k + 8)%nat s)
  | Some ss => (seed_seq_generate ss, s)
  end.

(** [prng_seed(std::seed_seq* ss)]: the initialisation of the static
    [d] runs on the first call only; every call returns [d.v]. *)
Definition prng_seed (ss : option seed_seq) (s : statics) : data * statics :=
  match seed_d s with
  | Some d => (d, s)
  | None => let '(d, s1) := data_ctor ss s in (d, set_seed_d d s1)
  end.

(** A run of calls of [prng_seed], one per argument, and what each
    returned. *)
Fixpoint prng_seed_calls (args : list (option seed_seq)) (s : statics)
  : list data * statics :=
  match args with
  | [] => ([], s)
  | a :: args' =>
      let '(d, s1) := prng_seed a s in
      let '(ds, s2) := prng_seed_calls args' s1 in
      (d :: ds, s2)
  end.
End seed.

(** ** The engines *)

(** [std::minstd_rand] is
    [linear_congruential_engine<uint_fast32_t, 48271, 0, 2147483647>]; its
    state is the last value [x] of the recurrence.  Seeding with [s] sets
    the state to [1] when both [c mod m] and [s mod m] are zero, and to
    [s mod m] otherwise; a call replaces [x] by [(a*x + c) mod m] and
    returns the new state. *)
Record minstd_rand := Minstd { lcg_x : Z }.

Definition minstd_a : Z := 48271.
Definition minstd_c : Z := 0.
Definition minstd_m : Z := 2147483647.

Definition minstd_rand_ctor (s : Z) : minstd_rand :=
  if decide (minstd_c mod minstd_m = 0 ∧ s mod minstd_m = 0)
  then Minstd 1
  else Minstd (s mod minstd_m).

Definition minstd_rand_call (e : minstd_rand) : Z * minstd_rand :=
  let x := (minstd_a * lcg_x e + minstd_c) mod minstd_m in (x, Minstd x).

(** Addition of two [std::uint32_t]. *)
Definition add32 (a b : Z) : Z := wrap32 (a + b).

(** [pv[0] + pv[1] + ... + pv[7]], left to right in 32-bit arithmetic. *)
Definition sum_pv (pv : data) : Z :=
  add32 (add32 (add32 (add32 (add32 (add32 (add32
    (v0 pv) (v1 pv)) (v2 pv)) (v3 pv)) (v4 pv)) (v5 pv)) (v6 pv)) (v7 pv).

Section constructors.
Context `{Platform}.

(** Modelled from the spec: the declaration of [prng_seed] (in
    [prng.hpp], which is not part of the sources at hand) gives its
    argument the default [nullptr], so that [prng_seed()] is
    [prng_seed None]. *)
Definition prng_seed_default : statics → data * statics := prng_seed None.

(** Modelled from the spec: the conversion to [prng::value_type] (also
    declared in [prng.hpp]), an unsigned 32-bit word. *)
Definition to_value_type : Z → Z := wrap32.

(** The lambda that computes the argument of [r_] in the two
    [fast_prng] constructors: the sum of the eight words is a 32-bit
    value, adding the 64-bit [++nonce] is done in 64 bits, and the
    result is cast to [value_type]. *)
Definition fast_prng_seed (st : strategy) (s : statics) : Z * statics :=
  let '(pv, s1) := prng_seed_default s in
  let '(n, s2) := incr_nonce (st, Fast) s1 in
  (to_value_type (wrap64 (sum_pv pv + n)), s2).

(** [r_(lambda())] of [fast_prng::fast_prng()]. *)
Definition fast_prng_r_init (st : strategy) (s : statics)
  : minstd_rand * statics :=
  let '(x, s1) := fast_prng_seed st s in (minstd_rand_ctor x, s1).

(** [r_(prng_seed(), lambda())] of [secure_prng::secure_prng()], the
    lambda being [++nonce].  The two arguments touch disjoint statics,
    so the order in which they are evaluated does not matter. *)
Definition secure_prng_r_init (st : strategy) (s : statics)
  : chacha * statics :=
  let '(pv, s1) := prng_seed_default s in
  let '(n, s2) := incr_nonce (st, Secure) s1 in
  (chacha_ctor pv n, s2).

(** The statics after the construction of one object of class [c]. *)
Definition construct (c : prng_class) (s : statics) : statics :=
  match c with
  | (st, Fast) => (fast_prng_r_init st s).2
  | (st, Secure) => (secure_prng_r_init st s).2
  end.

(** A run of constructions, in the order given.  Each entry records the
    class and the nonce its constructor drew: the value of the class's
    counter right after the construction, which is what [++nonce]
    yielded. *)
Fixpoint constructions (cs : list prng_class) (s : statics)
  : list (prng_class * Z) :=
  match cs with
  | [] => []
  | c :: cs' =>
      let s1 := construct c s in
      (c, nonce c s1) :: constructions cs' s1
  end.

(** What the generator members have in common: how the constructor of
    the enclosing pooled class initialises [r_], and [r_()]. *)
Class Engine (E : Type) := {
  r_init : statics → E * statics;
  r_call : E → Z * E
}.

#[global] Instance fast_engine : Engine minstd_rand := {|
  r_init := fast_prng_r_init NoTls;
  r_call := minstd_rand_call
|}.

#[global] Instance secure_engine : Engine chacha := {|
  r_init := secure_prng_r_init NoTls;
  r_call := chacha_call
|}.

(** The first [n] words of a generator: [operator()] returns [r_()]
    converted to [value_type]. *)
Fixpoint words {E} (call : E → Z * E) (n : nat) (e : E) : list Z :=
  match n with
  | O => []
  | S n' => let '(x, e1) := call e in to_value_type x :: words call n' e1
  end.

(** The first [n] words of an object of class [c] constructed in [s]. *)
Definition stream (c : prng_class) (n : nat) (s : statics) : list Z :=
  match c with
  | (st, Fast) => words minstd_rand_call n (fast_prng_r_init st s).1
  | (st, Secure) => words chacha_call n (secure_prng_r_init st s).1
  end.
End constructors.

#[global] Existing Instance fast_engine.
#[global] Existing Instance secure_engine.

(** ** The pooled strategy *)

(** An object of one of the two classes local to [make_prng_no_tls].
    They differ in the type of [r_] only; [next] is the link of the
    pool's intrusive list ([None] for [nullptr]). *)
Record pooled (E : Type) := Pooled {
  refs_ : Z;
  r_ : E;
  next : option nat
}.
Arguments Pooled {E} _ _ _.
Arguments refs_ {E} _.
Arguments r_ {E} _.
Arguments next {E} _.

Definition set_refs_ {E} (n : Z) (o : pooled E) : pooled E :=
  Pooled n (r_ o) (next o).
Definition set_r_ {E} (e : E) (o : pooled E) : pooled E :=
  Pooled (refs_ o) e (next o).
Definition set_next {E} (q : option nat) (o : pooled E) : pooled E :=
  Pooled (refs_ o) (r_ o) q.

(** The statics, the [head_] of the one [prng_pool<T>::instance()], and
    the objects of type [T] constructed so far, by address. *)
Record world (E : Type) := World {
  gl : statics;
  head_ : option nat;
  mem : list (pooled E)
}.
Arguments World {E} _ _ _.
Arguments gl {E} _.
Arguments head_ {E} _.
Arguments mem {E} _.

(** How a call ends: it returns, or [std::bad_alloc] leaves it (with the
    state at the throw), or its behaviour is not defined. *)
Inductive outcome (S A : Type) :=
| Returns (a : A) (s : S)
| Throws_bad_alloc (s : S)
| Undefined.
Arguments Returns {S A} _ _.
Arguments Throws_bad_alloc {S A} _.
Arguments Undefined {S A}.

(** The list [head_, head_->next, ...] up to the first null pointer, read
    the way the destructor of the pool walks it.  The walk is cut after
    as many nodes as there are objects. *)
Fixpoint walk {E} (m : list (pooled E)) (fuel : nat) (h : option nat) : list nat :=
  match fuel with
  | O => []
  | S f =>
      match h with
      | None => []
      | Some p =>
          match m !! p with
          | None => []
          | Some o => p :: walk m f (next o)
          end
      end
  end.

Definition free_list {E} (w : world E) : list nat :=
  walk (mem w) (length (mem w)) (head_ w).

Definition refcount {E} (p : nat) (w : world E) : option Z :=
  refs_ <$> mem w !! p.

(** [chain m h l]: following [next] from [h] through the objects of [m]
    visits the addresses [l], in this order, and then reaches a null
    pointer. *)
Inductive chain {E} (m : list (pooled E)) : option nat → list nat → Prop :=
| chain_null : chain m None []
| chain_node p o l :
    m !! p = Some o → chain m (next o) l → chain m (Some p) (p :: l).

(** The number of handles, among those alive, that point to [p]. *)
Definition handles (p : nat) (live : list nat) : Z :=
  Z.of_nat (count_occ Nat.eq_dec live p).

(** The pool is well formed for the handles alive: the free list is a
    chain without repetition, every handle points to an object, the
    reference count of every object is the number of handles on it, and
    the objects on the free list are those nobody holds. *)
Definition pool_inv {E} (w : world E) (live : list nat) : Prop :=
  ∃ fl, chain (mem w) (head_ w) fl ∧ NoDup fl ∧
        (∀ r, r ∈ live → is_Some (mem w !! r)) ∧
        (∀ p o, mem w !! p = Some o →
                refs_ o = handles p live ∧ (p ∈ fl ↔ refs_ o = 0)).

Section pooled.
Context `{Platform} {E : Type} `{!Engine E}.

(** [prng_pool<T>::release(T& t)]: [t.next = head_; head_ = &t]. *)
Definition prng_pool_release (t : nat) (w : world E) : world E :=
  World (gl w) (Some t) (alter (set_next (head_ w)) t (mem w)).

(** [acquire()] of the pooled classes: [++refs_; return *this]. *)
Definition acquire (p : nat) (w : world E) : outcome (world E) nat :=
  match mem w !! p with
  | None => Undefined
  | Some o =>
      if decide (refs_ o < INT_MAX)
      then Returns p (World (gl w) (head_ w)
                            (<[p := set_refs_ (refs_ o + 1) o]> (mem w)))
      else Undefined
  end.

(** [release()] of the pooled classes:
    [if(--refs_ == 0) prng_pool<T>::instance().release( *this )]. *)
Definition release (p : nat) (w : world E) : outcome (world E) () :=
  match mem w !! p with
  | None => Undefined
  | Some o =>
      if decide (INT_MIN < refs_ o)
      then
        let w1 := World (gl w) (head_ w)
                        (<[p := set_refs_ (refs_ o - 1) o]> (mem w)) in
        if decide (refs_ o - 1 = 0)
        then Returns () (prng_pool_release p w1)
        else Returns () w1
      else Undefined
  end.

(** [operator()()] of the pooled classes: [return r_()]. *)
Definition call (p : nat) (w : world E) : outcome (world E) Z :=
  match mem w !! p with
  | None => Undefined
  | Some o =>
      let '(x, e) := r_call (r_ o) in
      Returns (to_value_type x)
              (World (gl w) (head_ w) (<[p := set_r_ e o]> (mem w)))
  end.

(** Modelled from the spec: the handle [prng::ref] (declared in
    [prng.hpp]) wraps one instance; making a handle, from an instance or
    from another handle, goes through the instance's [acquire], dropping
    it through [release], and drawing a word through [operator()].  A
    handle is the address it holds. *)
Definition ref_ctor (p : nat) (w : world E) : outcome (world E) nat :=
  acquire p w.

(** Modelled from the spec: copying a handle acquires the instance it
    holds once more. *)
Definition ref_copy (r : nat) (w : world E) : outcome (world E) nat :=
  acquire r w.

(** Modelled from the spec: the destructor of a handle releases the
    instance it holds. *)
Definition ref_dtor (r : nat) (w : world E) : outcome (world E) () :=
  release r w.

(** Modelled from the spec: calling a handle calls the instance it
    holds. *)
Definition ref_call (r : nat) (w : world E) : outcome (world E) Z :=
  call r w.

(** [T()]: [refs_ = 0], [r_] seeded, [next = nullptr]. *)
Definition pooled_ctor (s : statics) : pooled E * statics :=
  let '(e, s1) := r_init s in (Pooled 0 e None, s1).

(** [prng_pool<T>::acquire()].  With a non-null [head_] the head node is
    unlinked and wrapped.  Otherwise one block is requested; a null
    block throws, and else an object is constructed in the block, whose
    address is the next free position of [mem], and wrapped. *)
Definition prng_pool_acquire (w : world E) : outcome (world E) nat :=
  match head_ w with
  | Some p =>
      match mem w !! p with
      | None => Undefined
      | Some o => ref_ctor p (World (gl w) (next o) (mem w))
      end
  | None =>
      let k := alloc_calls (gl w) in
      let g1 := set_alloc_calls (S k) (gl w) in
      if aligned_alloc k
      then
        let '(o, g2) := pooled_ctor g1 in
        ref_ctor (length (mem w)) (World g2 None (mem w ++ [o]))
      else Throws_bad_alloc (World g1 None (mem w))
  end.

(** [n] words drawn through one handle. *)
Fixpoint ref_calls (n : nat) (r : nat) (w : world E)
  : outcome (world E) (list Z) :=
  match n with
  | O => Returns [] w
  | S n' =>
      match ref_call r w with
      | Returns x w1 =>
          match ref_calls n' r w1 with
          | Returns xs w2 => Returns (x :: xs) w2
          | Throws_bad_alloc w2 => Throws_bad_alloc w2
          | Undefined => Undefined
          end
      | Throws_bad_alloc w1 => Throws_bad_alloc w1
      | Undefined => Undefined
      end
  end.

(** What the callers of one pool can do, as steps on the world and the
    handles alive ([live] lists the address of each, with repetitions):
    ask the pool for a handle (which may throw); copy, drop or draw
    from a handle that is alive; and, from outside, anything that
    changes the statics only (the other pool, the thread-local classes,
    a call of [prng_seed]).  A handle that was dropped is not used
    again, and nothing is done whose behaviour is not defined. *)
Inductive step : world E * list nat → world E * list nat → Prop :=
| step_make w live p w1 :
    prng_pool_acquire w = Returns p w1 →
    step (w, live) (w1, p :: live)
| step_make_throws w live w1 :
    prng_pool_acquire w = Throws_bad_alloc w1 →
    step (w, live) (w1, live)
| step_copy w live r r1 w1 :
    r ∈ live → ref_copy r w = Returns r1 w1 →
    step (w, live) (w1, r1 :: live)
| step_drop w l1 r l2 w1 :
    ref_dtor r w = Returns () w1 →
    step (w, l1 ++ r :: l2) (w1, l1 ++ l2)
| step_call w live r x w1 :
    r ∈ live → ref_call r w = Returns x w1 →
    step (w, live) (w1, live)
| step_statics w live g :
    step (w, live) (World g (head_ w) (mem w), live).

(** The worlds a process can be in: it starts with an empty pool, no
    object and no handle. *)
Definition reachable (w : world E) (live : list nat) : Prop :=
  ∃ g, rtc step (World g None [], []) (w, live).
End pooled.

(** ** The two pools side by side *)

(** A handle of the pooled strategy points to a [fast_prng] or to a
    [secure_prng]. *)
Inductive ref :=
| FastRef (p : nat)
| SecureRef (p : nat).

Section no_tls.
Context `{Platform}.

(** The two classes local to [make_prng_no_tls]. *)
Definition fast_prng : Type := pooled minstd_rand.
Definition secure_prng : Type := pooled chacha.

(** The statics and the two pool singletons, [prng_pool<fast_prng>] and
    [prng_pool<secure_prng>], with their objects. *)
Record process := Process {
  pstatics : statics;
  fast_head : option nat;
  fast_mem : list fast_prng;
  secure_head : option nat;
  secure_mem : list secure_prng
}.

Definition fast_world (pr : process) : world minstd_rand :=
  World (pstatics pr) (fast_head pr) (fast_mem pr).
Definition secure_world (pr : process) : world chacha :=
  World (pstatics pr) (secure_head pr) (secure_mem pr).

Definition with_fast (w : world minstd_rand) (pr : process) : process :=
  Process (gl w) (head_ w) (mem w) (secure_head pr) (secure_mem pr).
Definition with_secure (w : world chacha) (pr : process) : process :=
  Process (gl w) (fast_head pr) (fast_mem pr) (head_ w) (mem w).

(** [make_prng_no_tls(bool secure)]. *)
Definition make_prng_no_tls (secure : bool) (pr : process)
  : outcome process ref :=
  if secure then
    match prng_pool_acquire (secure_world pr) with
    | Returns p w => Returns (SecureRef p) (with_secure w pr)
    | Throws_bad_alloc w => Throws_bad_alloc (with_secure w pr)
    | Undefined => Undefined
    end
  else
    match prng_pool_acquire (fast_world pr) with
    | Returns p w => Returns (FastRef p) (with_fast w pr)
    | Throws_bad_alloc w => Throws_bad_alloc (with_fast w pr)
    | Undefined => Undefined
    end.
End no_tls.

(** ** The thread-exclusive strategy *)

Section tls.
Context `{Platform}.

(** The statics and, for each thread, its [thread_local fast_prng fp]
    and [thread_local secure_prng sp] once they are constructed.  The
    classes local to [make_prng_tls] have [r_] as their only member. *)
Record tls_world := TlsWorld {
  tgl : statics;
  fp : gmap nat minstd_rand;
  sp : gmap nat chacha
}.

(** A handle of this strategy points to the [fp] or to the [sp] of a
    thread. *)
Definition tls_ref : Type := nat * variant.

(** [acquire()] of the thread-local classes: [return *this]. *)
Definition tls_acquire (r : tls_ref) (w : tls_world) : tls_ref * tls_world :=
  (r, w).

(** [release()] of the thread-local classes: an empty body. *)
Definition tls_release (r : tls_ref) (w : tls_world) : tls_world := w.

(** [operator()()] of the thread-local classes: [return r_()].  There
    is nothing to call before the thread has constructed the object. *)
Definition tls_call (r : tls_ref) (w : tls_world) : option (Z * tls_world) :=
  match r with
  | (t, Fast) =>
      e ← fp w !! t;
      let '(x, e1) := minstd_rand_call e in
      Some (to_value_type x, TlsWorld (tgl w) (<[t := e1]> (fp w)) (sp w))
  | (t, Secure) =>
      e ← sp w !! t;
      let '(x, e1) := chacha_call e in
      Some (to_value_type x, TlsWorld (tgl w) (fp w) (<[t := e1]> (sp w)))
  end.

(** Modelled from the spec: [prng::ref] again, here over the
    thread-local classes; making a handle goes through [acquire] and
    dropping it through [release]. *)
Definition tls_ref_ctor (r : tls_ref) (w : tls_world) : tls_ref * tls_world :=
  tls_acquire r w.

(** Modelled from the spec: the destructor of a handle over a
    thread-local object calls its [release]. *)
Definition tls_ref_dtor (r : tls_ref) (w : tls_world) : tls_world :=
  tls_release r w.

(** [make_prng_tls(bool secure)] run by thread [t]: the thread-local
    object is constructed when the thread passes its declaration for
    the first time. *)
Definition make_prng_tls (t : nat) (secure : bool) (w : tls_world)
  : tls_ref * tls_world :=
  if secure then
    let w1 :=
      match sp w !! t with
      | Some _ => w
      | None =>
          let '(e, g) := secure_prng_r_init Tls (tgl w) in
          TlsWorld g (fp w) (<[t := e]> (sp w))
      end in
    tls_ref_ctor (t, Secure) w1
  else
    let w1 :=
      match fp w !! t with
      | Some _ => w
      | None =>
          let '(e, g) := fast_prng_r_init Tls (tgl w) in
          TlsWorld g (<[t := e]> (fp w)) (sp w)
      end in
    tls_ref_ctor (t, Fast) w1.
End tls.

(** ** Worlds to evaluate the definitions on

    All of them on [demo_platform], whose entropy makes the seed words
    [3, 10, ..., 52], of sum 220. *)

Definition demo_data : data := Data 3 10 17 24 31 38 45 52.

(** The pool of [fast_prng] at the start of the process. *)
Definition demo_w0 : world minstd_rand := World statics0 None [].

(** After one [acquire()] on the pool: one object, seeded with 221, held
    once. *)
Definition demo_w1 : world minstd_rand :=
  World (Statics (Some demo_data) 1 0 0 0 8%nat 1%nat) None
        [Pooled 1 (Minstd 221) None].

(** After the handle was dropped: the object is on the free list. *)
Definition demo_w2 : world minstd_rand :=
  World (Statics (Some demo_data) 1 0 0 0 8%nat 1%nat) (Some 0%nat)
        [Pooled 0 (Minstd 221) None].

(** A pool of [fast_prng] with nothing to hand out, at the moment the
    allocator is about to fail. *)
Definition demo_w_oom : world minstd_rand :=
  World (set_alloc_calls 2 statics0) None [].

(** Statics that differ from the initial ones in everything but what a
    pooled Fast constructor reads: the seed words are already computed,
    and the other counters have moved. *)
Definition demo_statics : statics :=
  Statics (Some demo_data) 0 5 0 9 100%nat 4%nat.

(** The process of [make_prng_no_tls] at its start. *)
Definition process0 `{Platform} : process := Process statics0 None [] None [].

(** ** Teardown of a pool *)

(** How the destructor of a pool ends: it has destroyed and freed the
    objects at the addresses listed, in this order; or it has read the
    link of a block that holds no object any more (or never did), which
    is not defined; or it is still looping when the rounds granted are
    used up. *)
Inductive teardown :=
| Freed (l : list nat)
| Teardown_undefined
| Teardown_unfinished.

(** The loop of [~prng_pool()]:
    [for(auto p = head_; p;) { auto next = p->next; p->~T();
      boost::alignment::aligned_free(p); p = next; }].
    [freed] lists the blocks given back so far; [fuel] bounds the number
    of rounds. *)
Fixpoint prng_pool_dtor_loop {E} (m : list (pooled E)) (fuel : nat)
    (p : option nat) (freed : list nat) : teardown :=
  match p with
  | None => Freed freed
  | Some q =>
      match fuel with
      | O => Teardown_unfinished
      | S f =>
          if decide (q ∈ freed) then Teardown_undefined
          else
            match m !! q with
            | None => Teardown_undefined
            | Some o => prng_pool_dtor_loop m f (next o) (freed ++ [q])
            end
      end
  end.

(** [~prng_pool()]. *)
Definition prng_pool_dtor {E} (fuel : nat) (w : world E) : teardown :=
  prng_pool_dtor_loop (mem w) fuel (head_ w) [].

(** ** Several handles taken in a row *)

Section pooled_runs.
Context `{Platform} {E : Type} `{!Engine E}.

(** [k] calls of [prng_pool<T>::acquire()], the handles being kept; the
    first call that does not return ends the run. *)
Fixpoint prng_pool_acquires (k : nat) (w : world E)
  : outcome (world E) (list nat) :=
  match k with
  | O => Returns [] w
  | S k' =>
      match prng_pool_acquire w with
      | Returns p w1 =>
          match prng_pool_acquires k' w1 with
          | Returns ps w2 => Returns (p :: ps) w2
          | Throws_bad_alloc w2 => Throws_bad_alloc w2
          | Undefined => Undefined
          end
      | Throws_bad_alloc w1 => Throws_bad_alloc w1
      | Undefined => Undefined
      end
  end.
End pooled_runs.

(** ** Runs of the seed derivation and of the constructors *)

(** What touches the seed words: a call of [prng_seed] with its argument,
    or the construction of a generator of some class. *)
Inductive seed_event :=
| Seed_call (ss : option seed_seq)
| Construction (c : prng_class).

Section seed_runs.
Context `{Platform}.

Definition seed_step (s : statics) (ev : seed_event) : statics :=
  match ev with
  | Seed_call ss => (prng_seed ss s).2
  | Construction c => construct c s
  end.

Definition seed_run (evs : list seed_event) (s : statics) : statics :=
  foldl seed_step s evs.

(** The seed sequence [data::data] builds from eight draws of the entropy
    source made at the start of the process. *)
Definition entropy_seed_seq : seed_seq :=
  seed_seq_init [random_device 0%nat; random_device 1%nat;
                 random_device 2%nat; random_device 3%nat;
                 random_device 4%nat; random_device 5%nat;
                 random_device 6%nat; random_device 7%nat].
End seed_runs.

(** ** Runs of the pooled factory *)

Definition fast_ptrs (hs : list ref) : list nat :=
  omap (λ r, match r with FastRef p => Some p | SecureRef _ => None end) hs.
Definition secure_ptrs (hs : list ref) : list nat :=
  omap (λ r, match r with SecureRef p => Some p | FastRef _ => None end) hs.

Section no_tls_runs.
Context `{Platform}.

(** One call of [make_prng_no_tls] per element of [bs], every handle
    returned being kept; the handles are listed latest first.  A call
    that throws hands out nothing, and the caller goes on. *)
Fixpoint make_prng_no_tls_calls (bs : list bool) (hs : list ref)
    (pr : process) : option (list ref * process) :=
  match bs with
  | [] => Some (hs, pr)
  | b :: bs' =>
      match make_prng_no_tls b pr with
      | Returns r pr1 => make_prng_no_tls_calls bs' (r :: hs) pr1
      | Throws_bad_alloc pr1 => make_prng_no_tls_calls bs' hs pr1
      | Undefined => None
      end
  end.

(** The handles kept are on pairwise distinct instances, and both pools
    are well formed for them. *)
Definition kept_ok (hs : list ref) (pr : process) : Prop :=
  NoDup hs ∧ NoDup (fast_ptrs hs) ∧ NoDup (secure_ptrs hs) ∧
  pool_inv (fast_world pr) (fast_ptrs hs) ∧
  pool_inv (secure_world pr) (secure_ptrs hs).
End no_tls_runs.

(** ** Runs of the thread-exclusive factory *)

(** What the threads do: thread [t] calls [make_prng_tls(secure)], or a
    word is drawn through the handle [r]. *)
Inductive tls_event :=
| Tls_make (t : nat) (secure : bool)
| Tls_draw (r : tls_ref).

#[global] Instance tls_event_eq_dec : EqDecision tls_event.
Proof. unfold tls_ref. solve_decision. Defined.

Section tls_runs.
Context `{Platform}.

(** No thread has constructed anything yet. *)
Definition tls_world0 : tls_world := TlsWorld statics0 ∅ ∅.

(** A run of events; it yields the words drawn, each with its handle, in
    order, and is [None] if a word is drawn through a handle on an
    object that was never constructed. *)
Fixpoint tls_run (evs : list tls_event) (w : tls_world)
  : option (list (tls_ref * Z) * tls_world) :=
  match evs with
  | [] => Some ([], w)
  | Tls_make t secure :: evs' => tls_run evs' (make_prng_tls t secure w).2
  | Tls_draw r :: evs' =>
      match tls_call r w with
      | None => None
      | Some (x, w1) =>
          match tls_run evs' w1 with
          | None => None
          | Some (ds, w2) => Some ((r, x) :: ds, w2)
          end
      end
  end.

(** The words drawn through [r], in order. *)
Definition drawn_by (r : tls_ref) (ds : list (tls_ref * Z)) : list Z :=
  (filter (λ d, d.1 = r) ds).*2.

(** The number of draws through [r] among the events. *)
Definition draws_of (r : tls_ref) (evs : list tls_event) : nat :=
  length (filter (λ ev, ev = Tls_draw r) evs).

(** The next [n] words of the generator behind [r], if it exists. *)
Definition tls_words (r : tls_ref) (n : nat) (w : tls_world) : option (list Z) :=
  match r with
  | (t, Fast) => words minstd_rand_call n <$> fp w !! t
  | (t, Secure) => words chacha_call n <$> sp w !! t
  end.
End tls_runs.

(** ** More worlds to evaluate the definitions on *)

(** After two [acquire()] on the pool of [demo_w0], both handles kept:
    two objects, seeded with 221 and 222, each held once. *)
Definition demo_w3 : world minstd_rand :=
  World (Statics (Some demo_data) 2 0 0 0 8%nat 2%nat) None
        [Pooled 1 (Minstd 221) None; Pooled 1 (Minstd 222) None].

(** Statics in which the seed words sum to [2^32 - 1] and no Fast
    generator was constructed yet. *)
Definition demo_statics_wrap : statics :=
  Statics (Some (Data (2 ^ 32 - 1) 0 0 0 0 0 0 0)) 0 0 0 0 8%nat 0%nat.

(** Thread 1 draws, thread 2 asks for a Fast handle and draws, thread 1
    asks again and draws again. *)
Definition demo_tls_events : list tls_event :=
  [Tls_draw (1%nat, Fast); Tls_make 2 false; Tls_draw (2%nat, Fast);
   Tls_make 1 false; Tls_draw (1%nat, Fast)].

(** Thread 1 has asked for a Fast handle. *)
Definition demo_tls_w1 : tls_world (H := demo_platform) :=
  (make_prng_tls (H := demo_platform) 1 false tls_world0).2.

(** * Properties *)

(** ** Arithmetic of the machine words *)

Lemma wrap32_wrap64 z : wrap32 (wrap64 z) = wrap32 z.
Proof.
  unfold wrap32, wrap64. apply Z.mod_mod_divide.
  exists (2 ^ 32). reflexivity.
Qed.

Lemma wrap32_add_l a b : wrap32 (wrap32 a + b) = wrap32 (a + b).
Proof. unfold wrap32. apply Z.add_mod_idemp_l. lia. Qed.

Lemma wrap32_small z : 0 ≤ z < 2 ^ 32 → wrap32 z = z.
Proof. intros. unfold wrap32. apply Z.mod_small. lia. Qed.

Lemma wrap64_small z : 0 ≤ z < 2 ^ 64 → wrap64 z = z.
Proof. intros. unfold wrap64. apply Z.mod_small. lia. Qed.

Lemma sum_pv_wrap pv :
  sum_pv pv =
  wrap32 (v0 pv + v1 pv + v2 pv + v3 pv + v4 pv + v5 pv + v6 pv + v7 pv).
Proof.
  unfold sum_pv, add32.
  repeat (rewrite wrap32_add_l || rewrite <- !Z.add_assoc). done.
Qed.

(** ** Statics: who changes what *)

Lemma nonce_set_nonce c c' n s :
  nonce c (set_nonce c' n s) = if decide (c = c') then n else nonce c s.
Proof.
  destruct (decide (c = c')) as [-> | Hne].
  - by destruct c' as [[] []].
  - destruct c as [[] []], c' as [[] []]; done.
Qed.

Lemma seed_d_set_nonce c n s : seed_d (set_nonce c n s) = seed_d s.
Proof. by destruct c as [[] []]. Qed.

Section seed_facts.
Context `{Platform}.

Lemma prng_seed_initialised ss s d :
  seed_d s = Some d → prng_seed ss s = (d, s).
Proof. intros Hd. unfold prng_seed. by rewrite Hd. Qed.

Lemma prng_seed_seed_d ss s :
  seed_d (prng_seed ss s).2 = Some (prng_seed ss s).1.
Proof.
  unfold prng_seed. destruct (seed_d s) eqn:Hd; [done |].
  by destruct (data_ctor ss s).
Qed.

Lemma prng_seed_nonce ss s c : nonce c (prng_seed ss s).2 = nonce c s.
Proof.
  unfold prng_seed. destruct (seed_d s); [done |].
  unfold data_ctor. by destruct ss, c as [[] []].
Qed.

Lemma prng_seed_calls_initialised args s d :
  seed_d s = Some d →
  prng_seed_calls args s = (replicate (length args) d, s).
Proof.
  intros Hd. induction args as [| a args IH]; [done |].
  simpl. rewrite (prng_seed_initialised a s d Hd), IH. done.
Qed.

(** C2. Whatever the first call of [prng_seed] was given and returned,
    every later call returns the same eight words, whatever argument it
    is given, and changes nothing: a seed sequence passed later is
    ignored, and the call returns normally. *)
Theorem prng_seed_stable (first : option seed_seq)
    (later : list (option seed_seq)) (s : statics) :
  let '(d, s1) := prng_seed first s in
  prng_seed_calls later s1 = (replicate (length later) d, s1).
Proof.
  pose proof (prng_seed_seed_d first s) as Hd.
  destruct (prng_seed first s) as [d s1]. simpl in Hd.
  by apply prng_seed_calls_initialised.
Qed.

(** ** Seeds and nonces of the constructors *)

Lemma construct_nonce c c' s :
  nonce c (construct c' s) =
  if decide (c = c') then wrap64 (nonce c s + 1) else nonce c s.
Proof.
  unfold construct, fast_prng_r_init, fast_prng_seed, secure_prng_r_init,
    prng_seed_default, incr_nonce.
  pose proof (prng_seed_nonce None s) as Hn.
  destruct c' as [st []]; destruct (prng_seed None s) as [pv s1];
    cbn [fst snd] in *; rewrite nonce_set_nonce;
    case_decide; subst; by rewrite ?Hn.
Qed.

(** The value of the lambda in the constructors of the Fast classes. *)
Lemma fast_prng_seed_value (st : strategy) (s : statics) :
  let '(pv, _) := prng_seed_default s in
  let '(x, s1) := fast_prng_seed st s in
  nonce (st, Fast) s1 = wrap64 (nonce (st, Fast) s + 1) ∧
  seed_d s1 = Some pv ∧
  x = (v0 pv + v1 pv + v2 pv + v3 pv + v4 pv + v5 pv + v6 pv + v7 pv
       + nonce (st, Fast) s1) mod 2 ^ 32.
Proof.
  unfold fast_prng_seed, prng_seed_default, incr_nonce, to_value_type.
  pose proof (prng_seed_nonce None s (st, Fast)) as Hn.
  pose proof (prng_seed_seed_d None s) as Hd.
  destruct (prng_seed None s) as [pv s1]. cbn [fst snd] in *.
  rewrite nonce_set_nonce, decide_True by done.
  rewrite seed_d_set_nonce, Hn. split_and!; [done | done |].
  rewrite wrap32_wrap64, sum_pv_wrap, wrap32_add_l. done.
Qed.

(** C7. Every construction of a Fast generator, of either strategy,
    seeds its engine with the sum of the eight seed words and of the
    nonce it has just incremented, modulo [2^32]: this is the value of
    the constructor's lambda, the engine member [r_] is the standard
    engine seeded with it, and so is the generator of the object the
    pool constructs ([T()] in [prng_pool<fast_prng>::acquire]) and of
    the thread-local object [make_prng_tls] constructs for a thread
    that has none. *)
Theorem fast_prng_seed_sum (st : strategy) (s : statics) :
  let '(pv, _) := prng_seed_default s in
  let '(e, s1) := fast_prng_r_init st s in
  let seed :=
    (v0 pv + v1 pv + v2 pv + v3 pv + v4 pv + v5 pv + v6 pv + v7 pv
     + nonce (st, Fast) s1) mod 2 ^ 32 in
  nonce (st, Fast) s1 = wrap64 (nonce (st, Fast) s + 1) ∧
  seed_d s1 = Some pv ∧
  (fast_prng_seed st s).1 = seed ∧
  e = minstd_rand_ctor seed ∧
  (st = NoTls →
   pooled_ctor (E := minstd_rand) s =
     (Pooled 0 (minstd_rand_ctor seed) None, s1)) ∧
  (st = Tls → ∀ (t : nat) (w : tls_world),
     tgl w = s → fp w !! t = None →
     make_prng_tls t false w =
       ((t, Fast),
        TlsWorld s1 (<[t := minstd_rand_ctor seed]> (fp w)) (sp w))).
Proof.
  pose proof (fast_prng_seed_value st s) as Hval.
  unfold fast_prng_r_init.
  destruct (prng_seed_default s) as [pv s0].
  destruct (fast_prng_seed st s) as [x s1] eqn:Hseed.
  cbn zeta. cbn [fst]. destruct Hval as (Hn & Hd & ->).
  split_and!; [done | done | done | done | |].
  - intros ->. unfold pooled_ctor. cbn [r_init fast_engine].
    unfold fast_prng_r_init. by rewrite Hseed.
  - intros -> t w <- Ht.
    unfold make_prng_tls, tls_ref_ctor, tls_acquire. rewrite Ht.
    unfold fast_prng_r_init. by rewrite Hseed.
Qed.
End seed_facts.

(** ** Nonces *)

Section nonce_facts.
Context `{Platform}.

(** The nonce recorded for a construction is the value [++nonce] had in
    its constructor. *)
Lemma construct_nonce_drawn c s :
  nonce c (construct c s) = (incr_nonce c (prng_seed_default s).2).1.
Proof.
  rewrite construct_nonce, decide_True by done.
  unfold incr_nonce, prng_seed_default. cbn [fst].
  by rewrite prng_seed_nonce.
Qed.

Lemma construct_nonce_le c c' s :
  0 ≤ nonce c s < 2 ^ 64 - 1 →
  nonce c s ≤ nonce c (construct c' s) ≤ nonce c s + 1.
Proof.
  intros Hr. rewrite construct_nonce. case_decide; [| lia].
  rewrite wrap64_small; lia.
Qed.

Lemma construct_nonce_same c s :
  0 ≤ nonce c s < 2 ^ 64 - 1 →
  nonce c (construct c s) = nonce c s + 1.
Proof.
  intros Hr. rewrite construct_nonce, decide_True by done.
  rewrite wrap64_small; lia.
Qed.

(** Every nonce drawn in a run is above the value its counter had
    before the run, as long as no counter can wrap. *)
Lemma constructions_above cs : ∀ s,
  (∀ c, 0 ≤ nonce c s ∧ nonce c s + Z.of_nat (length cs) < 2 ^ 64) →
  ∀ i c n, constructions cs s !! i = Some (c, n) → nonce c s < n.
Proof.
  induction cs as [| c0 cs IH]; intros s Hroom i c n Hi; [done |].
  simpl in Hroom.
  destruct i as [| i]; simpl in Hi.
  - simplify_eq. specialize (Hroom c).
    rewrite construct_nonce_same; lia.
  - apply IH in Hi.
    + specialize (Hroom c).
      pose proof (construct_nonce_le c c0 s). lia.
    + intros c1. specialize (Hroom c1).
      pose proof (construct_nonce_le c1 c0 s). lia.
Qed.

Lemma constructions_increasing cs : ∀ s,
  (∀ c, 0 ≤ nonce c s ∧ nonce c s + Z.of_nat (length cs) < 2 ^ 64) →
  ∀ i j c ni nj, (i < j)%nat →
    constructions cs s !! i = Some (c, ni) →
    constructions cs s !! j = Some (c, nj) →
    ni < nj.
Proof.
  induction cs as [| c0 cs IH]; intros s Hroom i j c ni nj Hij Hi Hj;
    [done |].
  simpl in Hroom.
  assert (Hroom1 : ∀ c1, 0 ≤ nonce c1 (construct c0 s) ∧
            nonce c1 (construct c0 s) + Z.of_nat (length cs) < 2 ^ 64).
  { intros c1. specialize (Hroom c1).
    pose proof (construct_nonce_le c1 c0 s). lia. }
  destruct j as [| j]; [lia |].
  destruct i as [| i]; simpl in Hi, Hj.
  - simplify_eq. eapply constructions_above; eauto.
  - eapply (IH _ Hroom1 i j); eauto. lia.
Qed.

(** C1, as amended.  In a run of fewer than [2^64] constructions from
    the start of the process, two objects of the same class (same
    variant and same strategy) never draw the same nonce: the nonces of
    one class grow with the order of construction. *)
Theorem nonce_unique_per_class (cs : list prng_class) (i j : nat)
    (c : prng_class) (ni nj : Z) :
  Z.of_nat (length cs) < 2 ^ 64 →
  i ≠ j →
  constructions cs statics0 !! i = Some (c, ni) →
  constructions cs statics0 !! j = Some (c, nj) →
  ni ≠ nj ∧ ((i < j)%nat → ni < nj).
Proof.
  intros Hlen Hij Hi Hj.
  assert (Hroom : ∀ c1, 0 ≤ nonce c1 statics0 ∧
            nonce c1 statics0 + Z.of_nat (length cs) < 2 ^ 64).
  { intros [[] []]; simpl; lia. }
  pose proof (constructions_increasing cs statics0 Hroom) as Hinc.
  destruct (decide (i < j)%nat) as [Hlt | Hge].
  - pose proof (Hinc i j c ni nj Hlt Hi Hj). split; [lia | done].
  - assert (j < i)%nat as Hlt by lia.
    pose proof (Hinc j i c nj ni Hlt Hj Hi). split; [lia | lia].
Qed.

(** ** Streams *)

(** C9. The words of a generator depend on the seed words and on the
    nonce its constructor drew, and on nothing else in the process:
    two constructions of one class that see the same seed words and
    draw the same nonce give the same words, for the Fast and for the
    Secure classes. *)
Theorem stream_determinism (c : prng_class) (n : nat) (s s' : statics) :
  (prng_seed_default s).1 = (prng_seed_default s').1 →
  nonce c (construct c s) = nonce c (construct c s') →
  stream c n s = stream c n s'.
Proof.
  intros Hpv Hn. rewrite !construct_nonce, !decide_True in Hn by done.
  unfold stream, fast_prng_r_init, fast_prng_seed, secure_prng_r_init,
    incr_nonce.
  pose proof (prng_seed_nonce None s c) as Hs.
  pose proof (prng_seed_nonce None s' c) as Hs'.
  unfold prng_seed_default in *.
  destruct (prng_seed None s) as [pv s1], (prng_seed None s') as [pv' s1'].
  cbn [fst snd] in *. subst pv'.
  destruct c as [st []]; cbn [fst snd]; by rewrite Hs, Hs', Hn.
Qed.
End nonce_facts.

(** ** Range of the Fast words *)

Lemma minstd_rand_ctor_range s :
  1 ≤ lcg_x (minstd_rand_ctor s) ≤ minstd_m - 1.
Proof.
  unfold minstd_rand_ctor.
  pose proof (Z.mod_pos_bound s minstd_m) as Hb.
  unfold minstd_m in *.
  case_decide as Hz; simpl; [lia |].
  assert (s mod 2147483647 ≠ 0).
  { intros Hs. apply Hz. split; [done | exact Hs]. }
  lia.
Qed.

Lemma minstd_rand_call_range e :
  1 ≤ lcg_x e ≤ minstd_m - 1 →
  1 ≤ (minstd_rand_call e).1 ≤ minstd_m - 1 ∧
  lcg_x (minstd_rand_call e).2 = (minstd_rand_call e).1.
Proof.
  intros Hx. unfold minstd_rand_call. cbn [fst snd lcg_x].
  split; [| done].
  unfold minstd_c. rewrite Z.add_0_r.
  pose proof (Z.mod_pos_bound (minstd_a * lcg_x e) minstd_m) as Hb.
  assert ((minstd_a * lcg_x e) mod minstd_m ≠ 0) as Hne.
  { intros Hz. apply Z.mod_divide in Hz; [| done].
    apply Z.gauss in Hz; [| reflexivity].
    apply Z.divide_pos_le in Hz; [| lia].
    unfold minstd_m in *. lia. }
  unfold minstd_m in *. lia.
Qed.

Lemma minstd_words_range n : ∀ e,
  1 ≤ lcg_x e ≤ minstd_m - 1 →
  Forall (λ x, 1 ≤ x ≤ 2 ^ 31 - 2) (words minstd_rand_call n e).
Proof.
  induction n as [| n IH]; intros e He; cbn [words]; [constructor |].
  pose proof (minstd_rand_call_range e He) as [Hx He1].
  destruct (minstd_rand_call e) as [x e1]. cbn [fst snd] in *.
  unfold minstd_m in *.
  constructor.
  - unfold to_value_type. rewrite wrap32_small; lia.
  - apply IH. rewrite He1. unfold minstd_m. lia.
Qed.

Section fast_range.
Context `{Platform}.

(** C10. Every word a Fast generator produces, of either strategy and
    however many were drawn before it, lies between [1] and
    [2^31 - 2]: never zero, never with the top bit set. *)
Theorem fast_prng_words_range (st : strategy) (n : nat) (s : statics) :
  Forall (λ x, 1 ≤ x ≤ 2 ^ 31 - 2) (stream (st, Fast) n s).
Proof.
  unfold stream, fast_prng_r_init.
  destruct (fast_prng_seed st s) as [x s1]. cbn [fst].
  apply minstd_words_range, minstd_rand_ctor_range.
Qed.
End fast_range.

(** ** The free list as a chain *)

Lemma handles_cons p q live :
  handles p (q :: live) = handles p live + (if decide (q = p) then 1 else 0).
Proof.
  unfold handles. case_decide as Hq.
  - rewrite count_occ_cons_eq by done. lia.
  - rewrite count_occ_cons_neq by done. lia.
Qed.

Lemma handles_app p l1 l2 :
  handles p (l1 ++ l2) = handles p l1 + handles p l2.
Proof. unfold handles. rewrite count_occ_app. lia. Qed.

Lemma handles_nonneg p live : 0 ≤ handles p live.
Proof. unfold handles. lia. Qed.

Lemma handles_pos p live : p ∈ live ↔ 1 ≤ handles p live.
Proof.
  unfold handles. rewrite list_elem_of_In, (count_occ_In Nat.eq_dec). lia.
Qed.

Section chain_facts.
Context {E : Type}.
Implicit Types (m : list (pooled E)) (l : list nat) (h : option nat).

Lemma chain_is_Some m h l q : chain m h l → q ∈ l → is_Some (m !! q).
Proof.
  induction 1 as [| p o l Hp _ IH]; intros Hq; [by apply elem_of_nil in Hq |].
  apply elem_of_cons in Hq as [-> | Hq]; eauto.
Qed.

(** A chain survives any change of the memory that keeps the [next] of
    the objects on it. *)
Lemma chain_frame m m' h l :
  chain m h l →
  (∀ q o, q ∈ l → m !! q = Some o →
          ∃ o', m' !! q = Some o' ∧ next o' = next o) →
  chain m' h l.
Proof.
  induction 1 as [| p o l Hp _ IH]; intros Hm; [constructor |].
  destruct (Hm p o) as (o' & Hp' & Hnext); [by left | done |].
  apply (chain_node m' p o'); [done |].
  rewrite Hnext. apply IH. intros q oq Hq. apply Hm. by right.
Qed.

Lemma chain_walk m h l :
  chain m h l → ∀ fuel, (length l ≤ fuel)%nat → walk m fuel h = l.
Proof.
  induction 1 as [| p o l Hp _ IH]; intros fuel Hf.
  - by destruct fuel.
  - destruct fuel as [| fuel]; simpl in *; [lia |].
    rewrite Hp, IH; [done | lia].
Qed.

Lemma chain_length m h l : chain m h l → NoDup l → (length l ≤ length m)%nat.
Proof.
  intros Hc Hnd.
  rewrite <- (length_seq (length m) 0).
  apply submseteq_length, NoDup_submseteq; [done |].
  intros q Hq. apply elem_of_seq.
  apply (chain_is_Some _ _ _ _ Hc), lookup_lt_is_Some in Hq. lia.
Qed.

Lemma chain_free_list (w : world E) l :
  chain (mem w) (head_ w) l → NoDup l → free_list w = l.
Proof.
  intros Hc Hnd. unfold free_list.
  apply chain_walk; [done |]. by eapply chain_length.
Qed.
End chain_facts.

(** ** The invariant of a pool *)

Lemma lookup_insert_mem {A} (m : list A) p q (o o' : A) :
  m !! p = Some o →
  <[p := o']> m !! q = if decide (q = p) then Some o' else m !! q.
Proof.
  intros Hp. apply lookup_lt_Some in Hp.
  rewrite list_lookup_insert.
  destruct (decide (q = p)) as [-> | Hq].
  - by rewrite decide_True.
  - rewrite decide_False; [done |]. intros [? _]. congruence.
Qed.

Section pool_facts.
Context `{Platform} {E : Type} `{!Engine E}.
Implicit Types (w : world E) (live : list nat) (o : pooled E).

Lemma pool_inv_statics w live g :
  pool_inv w live → pool_inv (World g (head_ w) (mem w)) live.
Proof. done. Qed.

(** Replacing the object at [p] by one with the same link, whose count
    is again the number of handles on it, and which is held if and only
    if it was held before. *)
Lemma pool_inv_update w live live' g p o o' :
  pool_inv w live →
  mem w !! p = Some o →
  next o' = next o →
  (∀ q, q ≠ p → handles q live' = handles q live) →
  refs_ o' = handles p live' →
  (refs_ o = 0 ↔ refs_ o' = 0) →
  pool_inv (World g (head_ w) (<[p := o']> (mem w))) live'.
Proof.
  intros (fl & Hc & Hnd & Hlive & Hobj) Hp Hnext Hother Hrefs Hzero.
  exists fl. cbn [mem head_]. split_and!; [| done | |].
  - eapply chain_frame; [done |]. intros q oq _ Hq.
    rewrite (lookup_insert_mem _ _ _ _ _ Hp). case_decide; subst.
    + exists o'. by simplify_eq.
    + by exists oq.
  - intros r Hr. rewrite (lookup_insert_mem _ _ _ _ _ Hp).
    case_decide; [done |]. apply Hlive.
    apply handles_pos. rewrite <- Hother by done. by apply handles_pos.
  - intros q oq. rewrite (lookup_insert_mem _ _ _ _ _ Hp).
    case_decide as Hq; intros Hoq; simplify_eq.
    + split; [done |]. destruct (Hobj p o Hp) as [_ Hfl]. tauto.
    + rewrite Hother by done. by apply Hobj.
Qed.

Lemma acquire_Returns p w r w1 :
  acquire p w = Returns r w1 →
  ∃ o, mem w !! p = Some o ∧ refs_ o < INT_MAX ∧ r = p ∧
       w1 = World (gl w) (head_ w) (<[p := set_refs_ (refs_ o + 1) o]> (mem w)).
Proof.
  unfold acquire. destruct (mem w !! p) as [o |]; [| done].
  case_decide; [| done]. intros ?; simplify_eq. eauto.
Qed.

Lemma release_Returns p w w1 :
  release p w = Returns () w1 →
  ∃ o, mem w !! p = Some o ∧ INT_MIN < refs_ o ∧
       let w' := World (gl w) (head_ w)
                       (<[p := set_refs_ (refs_ o - 1) o]> (mem w)) in
       w1 = if decide (refs_ o - 1 = 0) then prng_pool_release p w' else w'.
Proof.
  unfold release. destruct (mem w !! p) as [o |]; [| done].
  case_decide; [| done]. intros Hr. exists o. split_and!; [done | done |].
  cbn zeta. case_decide; by simplify_eq.
Qed.

Lemma call_Returns p w x w1 :
  call p w = Returns x w1 →
  ∃ o, mem w !! p = Some o ∧ x = to_value_type (r_call (r_ o)).1 ∧
       w1 = World (gl w) (head_ w) (<[p := set_r_ (r_call (r_ o)).2 o]> (mem w)).
Proof.
  unfold call. destruct (mem w !! p) as [o |]; [| done].
  destruct (r_call (r_ o)) as [y e] eqn:Hcall. intros ?; simplify_eq.
  exists o. by rewrite Hcall.
Qed.

Lemma pool_inv_acquire w live r r1 w1 :
  pool_inv w live → r ∈ live → acquire r w = Returns r1 w1 →
  r1 = r ∧ pool_inv w1 (r :: live).
Proof.
  intros Hinv Hr (o & Hp & _ & -> & ->)%acquire_Returns. split; [done |].
  pose proof Hinv as (fl & _ & _ & _ & Hobj).
  destruct (Hobj r o Hp) as [Hrefs _]. apply handles_pos in Hr.
  eapply pool_inv_update; [done | done | done | | |]; cbn [refs_ set_refs_].
  - intros q Hq. rewrite handles_cons, decide_False by done. lia.
  - rewrite handles_cons, decide_True by done. lia.
  - lia.
Qed.

Lemma pool_inv_call w live r x w1 :
  pool_inv w live → call r w = Returns x w1 → pool_inv w1 live.
Proof.
  intros Hinv (o & Hp & _ & ->)%call_Returns.
  pose proof Hinv as (fl & _ & _ & _ & Hobj).
  destruct (Hobj r o Hp) as [Hrefs _].
  by eapply pool_inv_update.
Qed.

Lemma pool_inv_release w l1 r l2 w1 :
  pool_inv w (l1 ++ r :: l2) → release r w = Returns () w1 →
  pool_inv w1 (l1 ++ l2).
Proof.
  intros Hinv (o & Hp & _ & ->)%release_Returns.
  pose proof Hinv as (fl & Hc & Hnd & Hlive & Hobj).
  destruct (Hobj r o Hp) as [Hrefs Hfl].
  assert (Hcount : ∀ q, handles q (l1 ++ r :: l2) =
            handles q (l1 ++ l2) + (if decide (r = q) then 1 else 0)).
  { intros q. rewrite !handles_app, handles_cons. lia. }
  pose proof (Hcount r) as Hr. rewrite decide_True in Hr by done.
  pose proof (handles_nonneg r (l1 ++ l2)) as Hnn.
  cbn zeta. case_decide as Hz.
  - (* the last handle: the object goes to the head of the list *)
    assert (r ∉ fl) as Hnotin by (rewrite Hfl; lia).
    set (o2 := set_next (head_ w) (set_refs_ (refs_ o - 1) o)).
    assert (Hmem : ∀ q, mem (prng_pool_release r
                (World (gl w) (head_ w)
                   (<[r := set_refs_ (refs_ o - 1) o]> (mem w)))) !! q =
              if decide (q = r) then Some o2 else mem w !! q).
    { intros q. cbn [prng_pool_release mem head_].
      rewrite list_lookup_alter, !(lookup_insert_mem _ _ _ _ _ Hp).
      destruct (decide (q = r)) as [-> | Hq].
      - repeat case_decide; first [reflexivity | congruence].
      - repeat case_decide; first [reflexivity | congruence]. }
    exists (r :: fl). split_and!.
    + apply (chain_node _ r o2); [by rewrite Hmem, decide_True |].
      unfold o2; cbn [next set_next]. eapply chain_frame; [done |].
      intros q oq Hq Hoq. exists oq. rewrite Hmem, decide_False; [done |].
      intros ->. done.
    + by apply NoDup_cons.
    + intros q Hq. rewrite Hmem. case_decide; [done |].
      apply Hlive. rewrite !elem_of_app, elem_of_cons in *. tauto.
    + intros q oq. rewrite Hmem.
      case_decide as Hq; intros Hoq; simplify_eq.
      * cbn [refs_ set_next set_refs_].
        split; [lia |]. split; [lia | intros _; by left].
      * specialize (Hcount q). rewrite decide_False in Hcount by done.
        destruct (Hobj q oq Hoq) as [Hq1 Hq2].
        split; [lia |]. rewrite elem_of_cons. tauto.
  - eapply pool_inv_update; [done | done | done | | |]; cbn [refs_ set_refs_].
    + intros q Hq. specialize (Hcount q).
      rewrite decide_False in Hcount by done. lia.
    + lia.
    + lia.
Qed.

Lemma prng_pool_acquire_hit w p o :
  head_ w = Some p → mem w !! p = Some o →
  prng_pool_acquire w = acquire p (World (gl w) (next o) (mem w)).
Proof. intros Hh Hp. unfold prng_pool_acquire, ref_ctor. by rewrite Hh, Hp. Qed.

Lemma prng_pool_acquire_miss w :
  head_ w = None → aligned_alloc (alloc_calls (gl w)) = true →
  let g1 := set_alloc_calls (S (alloc_calls (gl w))) (gl w) in
  prng_pool_acquire w =
  Returns (length (mem w))
    (World (r_init g1).2 None (mem w ++ [Pooled 1 (r_init g1).1 None])).
Proof.
  intros Hh Ha. unfold prng_pool_acquire, ref_ctor, pooled_ctor, acquire.
  rewrite Hh, Ha. cbn zeta. destruct (r_init _) as [e g2]. cbn [mem fst snd].
  rewrite lookup_app_r, Nat.sub_diag by done. cbn [lookup list_lookup refs_].
  rewrite decide_True by (unfold INT_MAX; lia).
  f_equal. f_equal.
  rewrite <- (Nat.add_0_r (length (mem w))), insert_app_r. done.
Qed.

Lemma prng_pool_acquire_throws w :
  head_ w = None → aligned_alloc (alloc_calls (gl w)) = false →
  prng_pool_acquire w =
  Throws_bad_alloc
    (World (set_alloc_calls (S (alloc_calls (gl w))) (gl w)) None (mem w)).
Proof. intros Hh Ha. unfold prng_pool_acquire. by rewrite Hh, Ha. Qed.

Lemma pool_inv_free_list w live :
  pool_inv w live →
  NoDup (free_list w) ∧ chain (mem w) (head_ w) (free_list w) ∧
  ∀ p o, mem w !! p = Some o → (p ∈ free_list w ↔ refs_ o = 0).
Proof.
  intros (fl & Hc & Hnd & _ & Hobj).
  rewrite (chain_free_list w fl Hc Hnd). split_and!; [done | done |].
  intros p o Hp. by apply Hobj.
Qed.

(** Taking the head of a non-empty free list. *)
Lemma pool_inv_hit w live p o :
  pool_inv w live → head_ w = Some p → mem w !! p = Some o →
  let w1 := World (gl w) (next o) (<[p := set_refs_ 1 o]> (mem w)) in
  refs_ o = 0 ∧
  prng_pool_acquire w = Returns p w1 ∧
  pool_inv w1 (p :: live) ∧
  free_list w = p :: free_list w1.
Proof.
  intros Hinv Hh Hp w1.
  pose proof Hinv as (fl0 & Hc & Hnd & Hlive & Hobj).
  rewrite Hh in Hc. inversion Hc as [| p' o' fl Hp' Hc' Heq]; subst.
  rewrite Hp in Hp'. injection Hp' as <-.
  apply NoDup_cons in Hnd as [Hnotin Hnd].
  destruct (Hobj p o Hp) as [Hrefs Hfl].
  assert (refs_ o = 0) as Hz by (apply Hfl; by left).
  assert (Hc1 : chain (mem w1) (head_ w1) fl).
  { subst w1. cbn [mem head_].
    eapply chain_frame; [done |]. intros q oq _ Hq.
    rewrite (lookup_insert_mem _ _ _ _ _ Hp). case_decide; subst.
    - eexists. split; [done |]. by simplify_eq.
    - by exists oq. }
  split_and!; [done | | |].
  - rewrite (prng_pool_acquire_hit w p o Hh Hp). unfold acquire.
    cbn [mem]. rewrite Hp, Hz, decide_True by (unfold INT_MAX; lia). done.
  - exists fl. split_and!; [done | done | |]; subst w1; cbn [mem].
    + intros r Hr. rewrite (lookup_insert_mem _ _ _ _ _ Hp).
      case_decide; [done |]. apply Hlive.
      apply elem_of_cons in Hr as [-> | Hr]; done.
    + intros q oq. rewrite (lookup_insert_mem _ _ _ _ _ Hp), handles_cons.
      case_decide as Hq; intros Hoq; simplify_eq.
      * rewrite decide_True by done. cbn [refs_ set_refs_].
        split; [lia |]. split; [done | lia].
      * rewrite decide_False by done.
        destruct (Hobj q oq Hoq) as [Hq1 Hq2].
        split; [lia |]. rewrite <- Hq2, elem_of_cons.
        split; [by right | by intros [? | ?]].
  - rewrite (chain_free_list w (p :: fl));
      [| by rewrite Hh | by apply NoDup_cons].
    by rewrite (chain_free_list w1 fl Hc1 Hnd).
Qed.

(** Constructing a new object when the free list is empty. *)
Lemma pool_inv_miss w live :
  pool_inv w live → head_ w = None →
  aligned_alloc (alloc_calls (gl w)) = true →
  let g1 := set_alloc_calls (S (alloc_calls (gl w))) (gl w) in
  let w1 := World (r_init g1).2 None
                  (mem w ++ [Pooled 1 (r_init g1).1 None]) in
  prng_pool_acquire w = Returns (length (mem w)) w1 ∧
  pool_inv w1 (length (mem w) :: live) ∧
  free_list w = [] ∧ free_list w1 = [].
Proof.
  intros Hinv Hh Ha g1 w1.
  pose proof Hinv as (fl0 & Hc & Hnd & Hlive & Hobj).
  rewrite Hh in Hc. inversion Hc; subst.
  assert (Hc1 : chain (mem w1) (head_ w1) []) by constructor.
  assert (Hfresh : handles (length (mem w)) live = 0).
  { pose proof (handles_nonneg (length (mem w)) live).
    destruct (decide (1 ≤ handles (length (mem w)) live)) as [Hin |]; [| lia].
    apply handles_pos, Hlive, lookup_lt_is_Some in Hin. lia. }
  split_and!.
  - by apply prng_pool_acquire_miss.
  - exists []. split_and!; [done | constructor | |]; subst w1; cbn [mem].
    + intros r Hr. apply lookup_lt_is_Some. rewrite length_app. simpl.
      apply elem_of_cons in Hr as [-> | Hr]; [lia |].
      apply Hlive, lookup_lt_is_Some in Hr. lia.
    + intros q oq Hoq. rewrite handles_cons.
      apply lookup_snoc_Some in Hoq as [[Hlt Hoq] | [-> <-]].
      * rewrite decide_False by lia.
        destruct (Hobj q oq Hoq) as [Hq1 Hq2]. split; [lia | done].
      * rewrite decide_True by done. cbn [refs_].
        split; [lia |]. split; [by intros ?%elem_of_nil | lia].
  - apply chain_free_list; [by rewrite Hh | constructor].
  - apply chain_free_list; [done | constructor].
Qed.

Lemma pool_inv_prng_pool_acquire w live p w1 :
  pool_inv w live → prng_pool_acquire w = Returns p w1 →
  pool_inv w1 (p :: live).
Proof.
  intros Hinv Hacq.
  destruct (head_ w) as [p0 |] eqn:Hh.
  - destruct (mem w !! p0) as [o |] eqn:Hp.
    + destruct (pool_inv_hit w live p0 o Hinv Hh Hp) as (_ & Heq & Hinv1 & _).
      rewrite Heq in Hacq. by simplify_eq.
    + unfold prng_pool_acquire in Hacq. by rewrite Hh, Hp in Hacq.
  - destruct (aligned_alloc (alloc_calls (gl w))) eqn:Ha.
    + destruct (pool_inv_miss w live Hinv Hh Ha) as (Heq & Hinv1 & _).
      rewrite Heq in Hacq. by simplify_eq.
    + by rewrite (prng_pool_acquire_throws w Hh Ha) in Hacq.
Qed.

Lemma pool_inv_prng_pool_acquire_throws w live w1 :
  pool_inv w live → prng_pool_acquire w = Throws_bad_alloc w1 →
  pool_inv w1 live.
Proof.
  intros Hinv Hacq. unfold prng_pool_acquire, ref_ctor, acquire in Hacq.
  destruct (head_ w) as [p0 |] eqn:Hh.
  - destruct (mem w !! p0) as [o |] eqn:Hp; [| done].
    cbn [mem] in Hacq. rewrite Hp in Hacq. by case_decide.
  - destruct (aligned_alloc (alloc_calls (gl w))).
    + unfold pooled_ctor in Hacq. destruct (r_init _) as [e g2].
      cbn [mem] in Hacq. destruct (_ !! _); [| done]. by case_decide.
    + simplify_eq. rewrite <- Hh. by apply pool_inv_statics.
Qed.

Lemma pool_inv_init g : pool_inv (World (E:=E) g None []) [].
Proof.
  exists []. split_and!; [constructor | constructor | |].
  - by intros r ?%elem_of_nil.
  - intros p o Hp. cbn [mem] in Hp. by rewrite lookup_nil in Hp.
Qed.

Lemma step_pool_inv (c c' : world E * list nat) :
  step c c' → pool_inv c.1 c.2 → pool_inv c'.1 c'.2.
Proof.
  intros Hstep. destruct Hstep; cbn [fst snd]; intros Hinv.
  - by eapply pool_inv_prng_pool_acquire.
  - by eapply pool_inv_prng_pool_acquire_throws.
  - edestruct pool_inv_acquire as [-> ?]; [done | done | done |]. done.
  - by eapply pool_inv_release.
  - by eapply pool_inv_call.
  - by apply pool_inv_statics.
Qed.

Lemma steps_pool_inv (c c' : world E * list nat) :
  rtc step c c' → pool_inv c.1 c.2 → pool_inv c'.1 c'.2.
Proof. induction 1; eauto using step_pool_inv. Qed.

(** In every reachable world the pool is well formed. *)
Lemma reachable_pool_inv w live : reachable w live → pool_inv w live.
Proof.
  intros [g Hrtc]. apply (steps_pool_inv _ _ Hrtc), pool_inv_init.
Qed.

(** ** The free list under the operations on handles *)

Lemma free_list_update w live g p o o' :
  pool_inv w live → mem w !! p = Some o → next o' = next o →
  free_list (World g (head_ w) (<[p := o']> (mem w))) = free_list w.
Proof.
  intros (Hnd & Hc & _)%pool_inv_free_list Hp Hnext.
  apply chain_free_list; [| done]. cbn [mem head_].
  eapply chain_frame; [done |]. intros q oq _ Hq.
  rewrite (lookup_insert_mem _ _ _ _ _ Hp). case_decide; subst.
  - exists o'. by simplify_eq.
  - by exists oq.
Qed.

Lemma free_list_push w live g r o o' :
  pool_inv w live → mem w !! r = Some o → r ∉ free_list w →
  free_list (prng_pool_release r (World g (head_ w) (<[r := o']> (mem w))))
  = r :: free_list w.
Proof.
  intros (Hnd & Hc & _)%pool_inv_free_list Hp Hnotin.
  assert (Hmem : ∀ q, alter (set_next (head_ w)) r (<[r := o']> (mem w)) !! q =
            if decide (q = r) then Some (set_next (head_ w) o')
            else mem w !! q).
  { intros q.
    rewrite list_lookup_alter, !(lookup_insert_mem _ _ _ _ _ Hp).
    repeat case_decide; first [reflexivity | congruence]. }
  apply chain_free_list; [| by apply NoDup_cons].
  cbn [prng_pool_release mem head_].
  eapply chain_node; [by rewrite Hmem, decide_True |].
  cbn [next set_next]. eapply chain_frame; [done |].
  intros q oq Hq Hoq. exists oq. rewrite Hmem, decide_False; [done |].
  by intros ->.
Qed.

(** C3. Along every run of the operations on the handles of a pool, and
    for every handle [r] alive: the reference count of its instance is
    the number of handles on it; [acquire] (defined unless the count is
    [INT_MAX]) returns the same instance with the count one higher and
    leaves the free list alone; [release] lowers the count by one, and
    the instance, which was not on the free list, becomes its head if
    the new count is zero, while the free list is left alone if the new
    count is not zero. *)
Theorem refcount_discipline w live r o :
  reachable w live → r ∈ live → mem w !! r = Some o →
  refs_ o = handles r live ∧ (r ∉ free_list w) ∧
  (refs_ o < INT_MAX →
     ∃ w1, acquire r w = Returns r w1 ∧
           refcount r w1 = Some (refs_ o + 1) ∧
           free_list w1 = free_list w) ∧
  (∃ w1, release r w = Returns () w1 ∧
         refcount r w1 = Some (refs_ o - 1) ∧
         free_list w1 =
           if decide (refs_ o - 1 = 0) then r :: free_list w
           else free_list w).
Proof.
  intros Hinv%reachable_pool_inv Hr Hp.
  pose proof Hinv as (fl & _ & _ & _ & Hobj).
  destruct (Hobj r o Hp) as [Hrefs _]. clear fl Hobj.
  pose proof (pool_inv_free_list w live Hinv) as (_ & _ & Hfl).
  apply handles_pos in Hr.
  assert (r ∉ free_list w) as Hnotin by (rewrite (Hfl r o Hp); lia).
  split_and!; [done | done | |].
  - intros Hmax. eexists. split_and!.
    + unfold acquire. by rewrite Hp, decide_True.
    + unfold refcount. cbn [mem].
      by rewrite (lookup_insert_mem _ _ _ _ _ Hp), decide_True.
    + by eapply free_list_update.
  - unfold release. rewrite Hp, decide_True by (unfold INT_MIN; lia).
    cbn zeta. case_decide as Hz; eexists; (split_and!; [done | |]).
    + unfold refcount. cbn [prng_pool_release mem].
      rewrite list_lookup_alter_eq, (lookup_insert_mem _ _ _ _ _ Hp).
      by rewrite decide_True.
    + by eapply free_list_push.
    + unfold refcount. cbn [mem].
      by rewrite (lookup_insert_mem _ _ _ _ _ Hp), decide_True.
    + by eapply free_list_update.
Qed.

(** ** Asking the pool for a handle *)

(** C5. In every reachable world, [prng_pool<T>::acquire] does one of
    two things.  If the free list is [p :: rest], it returns a handle on
    [p], the free list becomes [rest], the reference count of [p] is 1,
    and nothing is allocated, constructed or seeded (the statics and
    the generator of [p] are as before).  If the free list is empty and
    the allocator yields a block, it returns a handle on a new object
    placed after the existing ones, with a freshly seeded generator
    and reference count 1; the free list stays empty. *)
Theorem prng_pool_acquire_cases w live :
  reachable w live →
  match free_list w with
  | p :: rest =>
      ∃ o w1, head_ w = Some p ∧ mem w !! p = Some o ∧
        prng_pool_acquire w = Returns p w1 ∧
        free_list w1 = rest ∧
        mem w1 = <[p := Pooled 1 (r_ o) (next o)]> (mem w) ∧
        refcount p w1 = Some 1 ∧
        gl w1 = gl w
  | [] =>
      head_ w = None ∧
      (aligned_alloc (alloc_calls (gl w)) = true →
       let g1 := set_alloc_calls (S (alloc_calls (gl w))) (gl w) in
       ∃ w1, prng_pool_acquire w = Returns (length (mem w)) w1 ∧
         mem w1 = mem w ++ [Pooled 1 (r_init g1).1 None] ∧
         refcount (length (mem w)) w1 = Some 1 ∧
         gl w1 = (r_init g1).2 ∧
         free_list w1 = [])
  end.
Proof.
  intros Hinv%reachable_pool_inv.
  pose proof (pool_inv_free_list w live Hinv) as (_ & Hc & _).
  destruct (free_list w) as [| p rest] eqn:Hfl.
  - inversion Hc as [Hh |]. split; [done |]. intros Ha g1.
    destruct (pool_inv_miss w live Hinv (eq_sym Hh) Ha) as (Hacq & _ & _ & Hfl1).
    eexists. split_and!; [done | done | | done | done].
    unfold refcount. cbn [mem].
    rewrite lookup_app_r, Nat.sub_diag by done. done.
  - inversion Hc as [| p' o fl Hp Hc' Hh]; subst.
    destruct (pool_inv_hit w live p o Hinv (eq_sym Hh) Hp)
      as (Hz & Hacq & _ & Hfl1).
    rewrite Hfl in Hfl1. injection Hfl1 as Hfl1.
    eexists o, _. split_and!; [done | done | done | done | | | done].
    + done.
    + unfold refcount. cbn [mem].
      by rewrite (lookup_insert_mem _ _ _ _ _ Hp), decide_True.
Qed.

(** C6. When the free list is empty and the allocator returns a null
    block, [prng_pool<T>::acquire] throws [std::bad_alloc] after this
    one call of the allocator (whatever a second call would have
    returned): the pool, its objects and free list, the seed and the
    nonces are as before, and a later call for which the allocator
    yields a block returns a handle. *)
Theorem prng_pool_acquire_bad_alloc w :
  head_ w = None → aligned_alloc (alloc_calls (gl w)) = false →
  ∃ w1, prng_pool_acquire w = Throws_bad_alloc w1 ∧
    head_ w1 = head_ w ∧ mem w1 = mem w ∧ free_list w1 = free_list w ∧
    gl w1 = set_alloc_calls (S (alloc_calls (gl w))) (gl w) ∧
    (aligned_alloc (alloc_calls (gl w1)) = true →
     ∃ p w2, prng_pool_acquire w1 = Returns p w2).
Proof.
  intros Hh Ha. eexists. split; [by apply prng_pool_acquire_throws |].
  cbn [head_ mem gl]. split_and!; [done | done | | done |].
  - unfold free_list. cbn [head_ mem]. by rewrite Hh.
  - intros Ha1. eexists _, _. by apply prng_pool_acquire_miss.
Qed.

(** ** Reuse *)

Lemma set_r_set_r (e e' : E) o : set_r_ e' (set_r_ e o) = set_r_ e' o.
Proof. done. Qed.

Lemma set_r_id o : set_r_ (r_ o) o = o.
Proof. by destruct o. Qed.

(** Drawing words through a handle on an object changes the generator
    of that object and nothing else. *)
Lemma ref_calls_Returns n : ∀ r w o,
  mem w !! r = Some o →
  ∃ e, ref_calls n r w =
       Returns (words r_call n (r_ o))
               (World (gl w) (head_ w) (<[r := set_r_ e o]> (mem w))).
Proof.
  induction n as [| n IH]; intros r w o Hr; cbn [ref_calls words].
  - exists (r_ o). rewrite set_r_id, list_insert_id by done. by destruct w.
  - unfold ref_call, call. rewrite Hr.
    destruct (r_call (r_ o)) as [x e1].
    edestruct (IH r (World (gl w) (head_ w) (<[r := set_r_ e1 o]> (mem w))))
      as [e He].
    { cbn [mem]. by rewrite (lookup_insert_mem _ _ _ _ _ Hr), decide_True. }
    rewrite He. cbn [gl head_ mem r_ set_r_].
    exists e. by rewrite list_insert_insert_eq.
Qed.

Lemma ref_calls_add n k r w xs w2 ys w3 :
  ref_calls n r w = Returns xs w2 →
  ref_calls k r w2 = Returns ys w3 →
  ref_calls (n + k) r w = Returns (xs ++ ys) w3.
Proof.
  revert w xs. induction n as [| n IH]; intros w xs Hn Hk; simpl in *.
  - by simplify_eq.
  - destruct (ref_call r w) as [x w1 | |]; [| done | done].
    destruct (ref_calls n r w1) as [xs1 w2' | |] eqn:Hn1; [| done | done].
    simplify_eq. by rewrite (IH _ _ Hn1 Hk).
Qed.

(** What [prng_pool<T>::acquire] hands out is held once, and its link
    is the head of the free list that remains. *)
Lemma prng_pool_acquire_fresh w live p w1 :
  pool_inv w live → prng_pool_acquire w = Returns p w1 →
  ∃ o1, mem w1 !! p = Some o1 ∧ refs_ o1 = 1 ∧ next o1 = head_ w1.
Proof.
  intros Hinv Hacq.
  destruct (head_ w) as [p0 |] eqn:Hh.
  - destruct (mem w !! p0) as [o |] eqn:Hp.
    + destruct (pool_inv_hit w live p0 o Hinv Hh Hp) as (_ & Heq & _).
      rewrite Heq in Hacq. simplify_eq. eexists. cbn [mem head_].
      by rewrite (lookup_insert_mem _ _ _ _ _ Hp), decide_True.
    + unfold prng_pool_acquire in Hacq. by rewrite Hh, Hp in Hacq.
  - destruct (aligned_alloc (alloc_calls (gl w))) eqn:Ha.
    + rewrite (prng_pool_acquire_miss w Hh Ha) in Hacq. simplify_eq.
      eexists. cbn [mem head_].
      by rewrite lookup_app_r, Nat.sub_diag.
    + by rewrite (prng_pool_acquire_throws w Hh Ha) in Hacq.
Qed.

(** Dropping the only handle on an object and asking the pool again,
    whatever happened to the statics in between, gives back the same
    object with the same generator, linked to the rest of the free
    list. *)
Lemma release_prng_pool_acquire w r o :
  mem w !! r = Some o → refs_ o = 1 →
  ∃ w3, ref_dtor r w = Returns () w3 ∧
        gl w3 = gl w ∧
        r_ <$> mem w3 !! r = Some (r_ o) ∧
        ∀ g, prng_pool_acquire (World g (head_ w3) (mem w3)) =
             Returns r (World g (head_ w)
                              (<[r := set_next (head_ w) o]> (mem w))).
Proof.
  intros Hr Hrefs. unfold ref_dtor, release.
  rewrite Hr, Hrefs, decide_True by (unfold INT_MIN; lia).
  cbn zeta. rewrite decide_True by done.
  exists (prng_pool_release r
            (World (gl w) (head_ w) (<[r := set_refs_ (1 - 1) o]> (mem w)))).
  split; [done |].
  set (o3 := set_next (head_ w) (set_refs_ (1 - 1) o)).
  assert (Hr3 : alter (set_next (head_ w)) r
                  (<[r := set_refs_ (1 - 1) o]> (mem w)) !! r = Some o3).
  { rewrite list_lookup_alter_eq, (lookup_insert_mem _ _ _ _ _ Hr).
    by rewrite decide_True. }
  cbn [prng_pool_release gl head_ mem]. split_and!; [done | by rewrite Hr3 |].
  intros g. erewrite prng_pool_acquire_hit; [| done | exact Hr3].
  unfold acquire. cbn [mem gl head_]. rewrite Hr3.
  rewrite decide_True by (cbn; unfold INT_MAX; lia).
  cbn [next set_next o3]. f_equal. f_equal. apply list_eq. intros i.
  destruct (decide (i = r)) as [-> | Hi].
  - rewrite list_lookup_insert_eq.
    + rewrite (lookup_insert_mem _ _ _ _ _ Hr), decide_True by done.
      f_equal. destruct o as [n e q]. cbn in *. by subst.
    + rewrite length_alter, length_insert. by eapply lookup_lt_Some.
  - rewrite list_lookup_insert_ne, list_lookup_alter_ne,
      !list_lookup_insert_ne by done. done.
Qed.

(** The same in a reachable world, for a handle that is the only one on
    its instance, whatever happened since the instance was handed out:
    the words drawn after the instance is handed out again are those its
    generator was about to produce when the handle was dropped. *)
Lemma pool_reuse_sole_handle w live r o :
  reachable w live → mem w !! r = Some o → handles r live = 1 →
  ∃ w3, ref_dtor r w = Returns () w3 ∧
    ∀ g, ∃ w4, prng_pool_acquire (World g (head_ w3) (mem w3)) = Returns r w4 ∧
      gl w4 = g ∧
      ∀ k, ∃ w5, ref_calls k r w4 = Returns (words r_call k (r_ o)) w5.
Proof.
  intros Hinv%reachable_pool_inv Hr Hsole.
  destruct Hinv as (fl & _ & _ & _ & Hobj).
  destruct (Hobj r o Hr) as [Hrefs _]. rewrite Hsole in Hrefs.
  destruct (release_prng_pool_acquire w r o Hr Hrefs)
    as (w3 & Hdrop & _ & _ & Hagain).
  exists w3. split; [done |]. intros g. eexists. split; [by apply Hagain |].
  split; [done |]. intros k.
  edestruct (ref_calls_Returns k r
               (World g (head_ w) (<[r := set_next (head_ w) o]> (mem w))))
    as [e He].
  { cbn [mem]. by rewrite (lookup_insert_mem _ _ _ _ _ Hr), decide_True. }
  eexists. exact He.
Qed.

(** The closed run: in every reachable world, take a handle from the
    pool, draw any number [n] of words, drop the handle, and take a
    handle again, the statics being whatever the rest of the process
    made of them in between.  Dropping the handle changes neither the
    statics nor the generator of the instance.  The second handle is on
    the same instance; taking it leaves the statics alone (nothing is
    seeded) and puts the pool and its objects back exactly as they were
    before the drop, so that the words drawn afterwards are those that
    follow the first [n]. *)
Theorem pool_reuse w live p w1 n :
  reachable w live → prng_pool_acquire w = Returns p w1 →
  ∃ xs w2 w3,
    ref_calls n p w1 = Returns xs w2 ∧
    ref_dtor p w2 = Returns () w3 ∧
    gl w3 = gl w2 ∧
    r_ <$> mem w3 !! p = r_ <$> mem w2 !! p ∧
    ∀ g,
      prng_pool_acquire (World g (head_ w3) (mem w3)) =
        Returns p (World g (head_ w2) (mem w2)) ∧
      ∀ k, ∃ ys w5 w6,
        ref_calls k p (World g (head_ w2) (mem w2)) = Returns ys w5 ∧
        ref_calls (n + k) p w1 = Returns (xs ++ ys) w6.
Proof.
  intros Hinv%reachable_pool_inv Hacq.
  destruct (prng_pool_acquire_fresh w live p w1 Hinv Hacq)
    as (o1 & Hp1 & Hrefs1 & Hnext1).
  destruct (ref_calls_Returns n p w1 o1 Hp1) as [e Hcalls].
  set (w2 := World (gl w1) (head_ w1) (<[p := set_r_ e o1]> (mem w1))) in *.
  assert (Hp2 : mem w2 !! p = Some (set_r_ e o1)).
  { subst w2. cbn [mem].
    by rewrite (lookup_insert_mem _ _ _ _ _ Hp1), decide_True. }
  destruct (release_prng_pool_acquire w2 p (set_r_ e o1) Hp2)
    as (w3 & Hdrop & Hgl & Hr3 & Hagain); [done |].
  assert (Hsame : <[p := set_next (head_ w2) (set_r_ e o1)]> (mem w2) = mem w2).
  { apply list_insert_id. rewrite Hp2. f_equal.
    destruct o1 as [n1 e1 q1]. cbn in *. by subst. }
  exists (words r_call n (r_ o1)), w2, w3.
  split_and!; [done | done | done | by rewrite Hr3, Hp2 |].
  intros g. split; [by rewrite Hagain, Hsame |].
  intros k.
  destruct (ref_calls_Returns k p (World g (head_ w2) (mem w2)) _ Hp2)
    as [e1 Hk1].
  destruct (ref_calls_Returns k p w2 _ Hp2) as [e2 Hk2].
  eexists _, _, _. split; [exact Hk1 |]. by eapply ref_calls_add.
Qed.
End pool_facts.

(** ** The thread-exclusive strategy *)

Section tls_facts.
Context `{Platform}.

(** C8. In the thread-exclusive strategy [acquire] returns the
    instance it is called on and [release] returns, and neither
    changes anything (there is no reference count to change), also when
    they are reached through a handle.  Two calls of the factory by one
    thread return handles on the same instance, the one of that thread,
    and the second call changes nothing. *)
Theorem tls_acquire_release_noop (r : tls_ref) (t : nat)
    (secure : bool) (w : tls_world) :
  tls_acquire r w = (r, w) ∧
  tls_release r w = w ∧
  tls_ref_ctor r w = (r, w) ∧
  tls_ref_dtor r w = w ∧
  (let '(r1, w1) := make_prng_tls t secure w in
   let '(r2, w2) := make_prng_tls t secure w1 in
   r1 = (t, if secure then Secure else Fast) ∧ r2 = r1 ∧ w2 = w1).
Proof.
  split_and!; [done | done | done | done |].
  - unfold make_prng_tls, tls_ref_ctor, tls_acquire. destruct secure.
    + destruct (sp w !! t) as [e |] eqn:Ht.
      * by rewrite Ht.
      * destruct (secure_prng_r_init Tls (tgl w)) as [e g]. cbn [sp].
        by rewrite lookup_insert_eq.
    + destruct (fp w !! t) as [e |] eqn:Ht.
      * by rewrite Ht.
      * destruct (fast_prng_r_init Tls (tgl w)) as [e g]. cbn [fp].
        by rewrite lookup_insert_eq.
Qed.
End tls_facts.

(** * Further properties *)

(** ** Who holds what *)

Section pool_more.
Context `{Platform} {E : Type} `{!Engine E}.
Implicit Types (w : world E) (live : list nat) (o : pooled E).

Lemma pool_inv_elim w live :
  pool_inv w live →
  NoDup (free_list w) ∧
  chain (mem w) (head_ w) (free_list w) ∧
  (∀ r, r ∈ live → is_Some (mem w !! r)) ∧
  (∀ p o, mem w !! p = Some o →
          refs_ o = handles p live ∧ (p ∈ free_list w ↔ refs_ o = 0)).
Proof.
  intros (fl & Hc & Hnd & Hlive & Hobj).
  by rewrite (chain_free_list w fl Hc Hnd).
Qed.

(** X1. In every reachable world each object is in exactly one place:
    the free list has no repetition and holds addresses of objects only,
    every handle alive points to an object, and an object is on the free
    list if and only if no handle alive points to it. *)
Theorem pool_partition w live :
  reachable w live →
  NoDup (free_list w) ∧
  (∀ r, r ∈ live → (r < length (mem w))%nat) ∧
  (∀ p, p ∈ free_list w → (p < length (mem w))%nat) ∧
  (∀ p, (p < length (mem w))%nat → (p ∈ free_list w ↔ p ∉ live)).
Proof.
  intros (Hnd & Hc & Hlive & Hobj)%reachable_pool_inv%pool_inv_elim.
  split_and!; [done | | |].
  - intros r Hr. by apply lookup_lt_is_Some, Hlive.
  - intros p Hp. by eapply lookup_lt_is_Some, chain_is_Some.
  - intros p [o Hp]%lookup_lt_is_Some.
    destruct (Hobj p o Hp) as [Hrefs ->].
    pose proof (handles_nonneg p live). rewrite handles_pos. lia.
Qed.

Lemma pool_inv_acquire_not_held w live p w1 :
  pool_inv w live → prng_pool_acquire w = Returns p w1 → p ∉ live.
Proof.
  intros Hinv Hacq Hp.
  pose proof Hinv as (_ & _ & Hlive & Hobj)%pool_inv_elim.
  destruct (head_ w) as [p0 |] eqn:Hh.
  - destruct (mem w !! p0) as [o |] eqn:Hp0.
    + destruct (pool_inv_hit w live p0 o Hinv Hh Hp0) as (Hz & Heq & _).
      rewrite Heq in Hacq. simplify_eq.
      destruct (Hobj p o Hp0) as [Hrefs _].
      apply handles_pos in Hp. lia.
    + unfold prng_pool_acquire in Hacq. by rewrite Hh, Hp0 in Hacq.
  - destruct (aligned_alloc (alloc_calls (gl w))) eqn:Ha.
    + rewrite (prng_pool_acquire_miss w Hh Ha) in Hacq. simplify_eq.
      apply Hlive, lookup_lt_is_Some in Hp. lia.
    + by rewrite (prng_pool_acquire_throws w Hh Ha) in Hacq.
Qed.

(** X2. In every reachable world, the instance [prng_pool<T>::acquire]
    hands out is one that no handle alive points to, whether it comes
    from the free list or is new; its reference count is 1 and the world
    with the new handle is reachable again. *)
Theorem prng_pool_acquire_exclusive w live p w1 :
  reachable w live → prng_pool_acquire w = Returns p w1 →
  (p ∉ live) ∧ refcount p w1 = Some 1 ∧ reachable w1 (p :: live).
Proof.
  intros Hreach Hacq. pose proof (reachable_pool_inv w live Hreach) as Hinv.
  split_and!.
  - by eapply pool_inv_acquire_not_held.
  - destruct (prng_pool_acquire_fresh w live p w1 Hinv Hacq)
      as (o1 & Hp1 & Hrefs1 & _).
    unfold refcount. by rewrite Hp1, <- Hrefs1.
  - destruct Hreach as [g Hrtc]. exists g.
    eapply rtc_r; [done |]. by constructor.
Qed.

(** ** Drawing, copying and dropping *)

Lemma walk_frame (m m' : list (pooled E)) :
  (∀ q, next <$> m' !! q = next <$> m !! q) →
  ∀ fuel h, walk m' fuel h = walk m fuel h.
Proof.
  intros Hm. induction fuel as [| fuel IH]; intros h; [done |].
  destruct h as [p |]; [| done]. cbn [walk].
  specialize (Hm p).
  destruct (m' !! p) as [o' |], (m !! p) as [o |]; simplify_eq/=; [| done].
  by rewrite IH, Hm.
Qed.

(** X3. Drawing [n] words through a handle yields the next [n] words of
    the generator of its instance and changes nothing else: the statics,
    the head and the content of the free list, the other objects, and
    the reference count and link of the instance itself are as
    before. *)
Theorem ref_calls_frame n r w o :
  mem w !! r = Some o →
  ∃ w1, ref_calls n r w = Returns (words r_call n (r_ o)) w1 ∧
    gl w1 = gl w ∧ head_ w1 = head_ w ∧ free_list w1 = free_list w ∧
    length (mem w1) = length (mem w) ∧
    (∀ q, q ≠ r → mem w1 !! q = mem w !! q) ∧
    refs_ <$> mem w1 !! r = Some (refs_ o) ∧
    next <$> mem w1 !! r = Some (next o).
Proof.
  intros Hr. destruct (ref_calls_Returns n r w o Hr) as [e He].
  eexists. split; [exact He |]. cbn [gl head_ mem].
  assert (Hlook : ∀ q, <[r := set_r_ e o]> (mem w) !! q =
            if decide (q = r) then Some (set_r_ e o) else mem w !! q).
  { intros q. apply (lookup_insert_mem _ _ _ _ _ Hr). }
  split_and!; [done | done | | | | |].
  - unfold free_list. cbn [mem head_]. rewrite length_insert.
    apply walk_frame. intros q. rewrite Hlook. case_decide; [| done].
    subst. by rewrite Hr.
  - by rewrite length_insert.
  - intros q Hq. by rewrite Hlook, decide_False.
  - by rewrite Hlook, decide_True.
  - by rewrite Hlook, decide_True.
Qed.

(** X4. Copying a handle alive and dropping the copy puts the world back
    exactly as it was: in every reachable world, if the number of handles
    on the instance is below [INT_MAX], the copy is a handle on the same
    instance and its destruction undoes the copy. *)
Theorem ref_copy_dtor_roundtrip w live r :
  reachable w live → r ∈ live → handles r live < INT_MAX →
  ∃ w1, ref_copy r w = Returns r w1 ∧ ref_dtor r w1 = Returns () w.
Proof.
  intros (_ & _ & Hlive & Hobj)%reachable_pool_inv%pool_inv_elim Hr Hmax.
  destruct (Hlive r Hr) as [o Ho].
  destruct (Hobj r o Ho) as [Hrefs _]. apply handles_pos in Hr.
  unfold ref_copy, acquire. rewrite Ho, decide_True by lia.
  eexists. split; [done |].
  unfold ref_dtor, release. cbn [mem gl head_].
  rewrite (lookup_insert_mem _ _ _ _ _ Ho), decide_True by done.
  cbn [refs_ set_refs_].
  rewrite decide_True by (unfold INT_MIN; lia).
  cbn zeta. rewrite decide_False by lia.
  f_equal. destruct w as [g h m]. cbn [mem gl head_] in *. f_equal.
  rewrite list_insert_insert_eq. apply list_insert_id. rewrite Ho. f_equal.
  destruct o as [k e q]. unfold set_refs_. cbn. f_equal. lia.
Qed.

(** ** What the generators of a pool satisfy *)

(** A property of generators that construction establishes and a call
    keeps holds of every object of every reachable world. *)
Lemma step_engine_inv (P : E → Prop) (c c' : world E * list nat) :
  (∀ s, P (r_init s).1) → (∀ e, P e → P (r_call e).2) →
  step c c' →
  Forall (λ o, P (r_ o)) (mem c.1) → Forall (λ o, P (r_ o)) (mem c'.1).
Proof.
  intros Hinit Hcall Hstep IH.
  destruct Hstep as [w0 l0 p w1 Hacq | w0 l0 w1 Hthrow | w0 l0 r r1 w1 _ Hcopy
                     | w0 l1 r l2 w1 Hdrop | w0 l0 r x w1 _ Hdraw | w0 l0 g1];
    cbn [fst] in *.
  - destruct (head_ w0) as [p0 |] eqn:Hh.
    + destruct (mem w0 !! p0) as [o |] eqn:Hp0.
      * rewrite (prng_pool_acquire_hit w0 p0 o Hh Hp0) in Hacq.
        apply acquire_Returns in Hacq as (o' & Ho' & _ & -> & ->).
        cbn [mem] in *. simplify_eq. apply Forall_insert; [done |].
        cbn [r_ set_refs_]. by eapply (proj1 (Forall_lookup _ _) IH).
      * unfold prng_pool_acquire in Hacq. by rewrite Hh, Hp0 in Hacq.
    + destruct (aligned_alloc (alloc_calls (gl w0))) eqn:Ha.
      * rewrite (prng_pool_acquire_miss w0 Hh Ha) in Hacq. simplify_eq.
        cbn [mem]. apply Forall_app. split; [done |].
        constructor; [apply Hinit | constructor].
      * by rewrite (prng_pool_acquire_throws w0 Hh Ha) in Hacq.
  - destruct (head_ w0) as [p0 |] eqn:Hh.
    + unfold prng_pool_acquire, ref_ctor, acquire in Hthrow. rewrite Hh in Hthrow.
      destruct (mem w0 !! p0) as [o |] eqn:Hp0; [| done].
      cbn [mem] in Hthrow. rewrite Hp0 in Hthrow. by case_decide.
    + destruct (aligned_alloc (alloc_calls (gl w0))) eqn:Ha.
      * by rewrite (prng_pool_acquire_miss w0 Hh Ha) in Hthrow.
      * rewrite (prng_pool_acquire_throws w0 Hh Ha) in Hthrow. by simplify_eq.
  - apply acquire_Returns in Hcopy as (o & Ho & _ & -> & ->).
    cbn [mem]. apply Forall_insert; [done |].
    cbn [r_ set_refs_]. by eapply (proj1 (Forall_lookup _ _) IH).
  - apply release_Returns in Hdrop as (o & Ho & _ & ->).
    assert (Forall (λ o, P (r_ o)) (<[r := set_refs_ (refs_ o - 1) o]> (mem w0))).
    { apply Forall_insert; [done |]. cbn [r_ set_refs_].
      by eapply (proj1 (Forall_lookup _ _) IH). }
    cbn zeta. case_decide; [| done].
    cbn [prng_pool_release mem]. apply Forall_alter; [done |].
    by intros [k e q] _ ?.
  - apply call_Returns in Hdraw as (o & Ho & _ & ->).
    cbn [mem]. apply Forall_insert; [done |]. cbn [r_ set_r_].
    apply Hcall. by eapply (proj1 (Forall_lookup _ _) IH).
  - done.
Qed.

Lemma reachable_engine_inv (P : E → Prop) :
  (∀ s, P (r_init s).1) → (∀ e, P e → P (r_call e).2) →
  ∀ w live, reachable w live → Forall (λ o, P (r_ o)) (mem w).
Proof.
  intros Hinit Hcall w live [g Hrtc].
  assert (∀ c c' : world E * list nat, rtc step c c' →
            Forall (λ o, P (r_ o)) (mem c.1) →
            Forall (λ o, P (r_ o)) (mem c'.1)) as Hsteps.
  { induction 1; eauto using step_engine_inv. }
  apply (Hsteps _ _ Hrtc). constructor.
Qed.
End pool_more.

Section fast_pool.
Context `{Platform}.

(** X5. In every reachable world of the pool of Fast generators, the
    words drawn through a handle alive, however many, all lie between
    [1] and [2^31 - 2], wherever the instance came from and whatever was
    drawn from it before. *)
Theorem fast_handle_words_range (w : world minstd_rand) live r n :
  reachable w live → r ∈ live →
  ∃ xs w1, ref_calls n r w = Returns xs w1 ∧
           Forall (λ x, 1 ≤ x ≤ 2 ^ 31 - 2) xs.
Proof.
  intros Hreach Hr.
  pose proof (pool_inv_elim w live (reachable_pool_inv w live Hreach))
    as (_ & _ & Hlive & _).
  destruct (Hlive r Hr) as [o Ho].
  assert (Hinit : ∀ s, 1 ≤ lcg_x (r_init s).1 ≤ minstd_m - 1).
  { intros s. cbn [r_init fast_engine]. unfold fast_prng_r_init.
    destruct (fast_prng_seed NoTls s). apply minstd_rand_ctor_range. }
  assert (Hcall : ∀ e, 1 ≤ lcg_x e ≤ minstd_m - 1 →
            1 ≤ lcg_x (r_call e).2 ≤ minstd_m - 1).
  { intros e He. cbn [r_call fast_engine].
    destruct (minstd_rand_call_range e He) as [? ->]. done. }
  pose proof (reachable_engine_inv (λ e, 1 ≤ lcg_x e ≤ minstd_m - 1)
                Hinit Hcall w live Hreach) as Hall.
  assert (1 ≤ lcg_x (r_ o) ≤ minstd_m - 1) as Hrange
    by (by eapply (proj1 (Forall_lookup _ _) Hall)).
  destruct (ref_calls_Returns n r w o Ho) as [e He].
  eexists _, _. split; [exact He |].
  by apply minstd_words_range.
Qed.

(** X6. The words drawn through the handle on a newly constructed
    pooled object are the stream of its class: when the free list is
    empty and the allocator yields a block, the first [n] words are
    those of a Fast (in the pool of Fast generators) or Secure (in the
    other pool) generator constructed in the statics of that moment. *)
Theorem fresh_handle_stream (n : nat) :
  (∀ w : world minstd_rand,
     head_ w = None → aligned_alloc (alloc_calls (gl w)) = true →
     ∃ w1 w2,
       prng_pool_acquire w = Returns (length (mem w)) w1 ∧
       ref_calls n (length (mem w)) w1 =
         Returns (stream (NoTls, Fast) n
                    (set_alloc_calls (S (alloc_calls (gl w))) (gl w))) w2) ∧
  (∀ w : world chacha,
     head_ w = None → aligned_alloc (alloc_calls (gl w)) = true →
     ∃ w1 w2,
       prng_pool_acquire w = Returns (length (mem w)) w1 ∧
       ref_calls n (length (mem w)) w1 =
         Returns (stream (NoTls, Secure) n
                    (set_alloc_calls (S (alloc_calls (gl w))) (gl w))) w2).
Proof.
  split; intros w Hh Ha.
  - set (g1 := set_alloc_calls (S (alloc_calls (gl w))) (gl w)).
    set (w1 := World (r_init (E := minstd_rand) g1).2 None
                     (mem w ++ [Pooled 1 (r_init (E := minstd_rand) g1).1 None])).
    assert (mem w1 !! length (mem w) = Some (Pooled 1 (r_init g1).1 None)) as Hl.
    { subst w1. cbn [mem]. by rewrite lookup_app_r, Nat.sub_diag. }
    destruct (ref_calls_Returns n _ w1 _ Hl) as [e He].
    exists w1. eexists. split; [exact (prng_pool_acquire_miss (E := minstd_rand) w Hh Ha) |].
    rewrite He. done.
  - set (g1 := set_alloc_calls (S (alloc_calls (gl w))) (gl w)).
    set (w1 := World (r_init (E := chacha) g1).2 None
                     (mem w ++ [Pooled 1 (r_init (E := chacha) g1).1 None])).
    assert (mem w1 !! length (mem w) = Some (Pooled 1 (r_init g1).1 None)) as Hl.
    { subst w1. cbn [mem]. by rewrite lookup_app_r, Nat.sub_diag. }
    destruct (ref_calls_Returns n _ w1 _ Hl) as [e He].
    exists w1. eexists. split; [exact (prng_pool_acquire_miss (E := chacha) w Hh Ha) |].
    rewrite He. done.
Qed.
End fast_pool.

(** ** Teardown *)

Section teardown_facts.
Context {E : Type}.

Lemma prng_pool_dtor_loop_chain (m : list (pooled E)) h l :
  chain m h l →
  ∀ fuel freed, (length l ≤ fuel)%nat → NoDup (freed ++ l) →
    prng_pool_dtor_loop m fuel h freed = Freed (freed ++ l).
Proof.
  induction 1 as [| p o l Hp _ IH]; intros fuel freed Hfuel Hnd.
  - destruct fuel; cbn; by rewrite app_nil_r.
  - destruct fuel as [| fuel]; cbn in *; [lia |].
    assert (p ∉ freed) as Hnotin.
    { apply NoDup_app in Hnd as (_ & Hdisj & _). intros Hin.
      apply (Hdisj p Hin). by left. }
    rewrite decide_False, Hp by done.
    rewrite IH; [| lia | by rewrite <- app_assoc].
    by rewrite <- app_assoc.
Qed.
End teardown_facts.

Section teardown_reachable.
Context `{Platform} {E : Type} `{!Engine E}.

(** X7. In every reachable world the destructor of the pool, given at
    least as many rounds as there are objects, comes to an end having
    destroyed and freed exactly the objects of the free list, each once
    and in list order; no instance that a handle alive points to is
    destroyed or freed. *)
Theorem prng_pool_dtor_frees_idle (w : world E) live fuel :
  reachable w live → (length (mem w) ≤ fuel)%nat →
  prng_pool_dtor fuel w = Freed (free_list w) ∧
  NoDup (free_list w) ∧
  ∀ r, r ∈ live → r ∉ free_list w.
Proof.
  intros Hreach Hfuel.
  pose proof (reachable_pool_inv w live Hreach) as Hinv.
  pose proof (pool_inv_elim w live Hinv) as (Hnd & Hc & Hlive & Hobj).
  split_and!; [| done |].
  - unfold prng_pool_dtor.
    rewrite (prng_pool_dtor_loop_chain _ _ _ Hc); [done | | done].
    pose proof (chain_length _ _ _ Hc Hnd). lia.
  - intros r Hr. destruct (Hlive r Hr) as [o Ho].
    destruct (Hobj r o Ho) as [Hrefs ->]. apply handles_pos in Hr. lia.
Qed.
End teardown_reachable.

(** ** Where the seed words come from *)

Lemma rd_draws_set_nonce c n s : rd_draws (set_nonce c n s) = rd_draws s.
Proof. by destruct c as [[] []]. Qed.

Section seed_more.
Context `{Platform}.

Lemma construct_initialised c s d :
  seed_d s = Some d →
  seed_d (construct c s) = Some d ∧ rd_draws (construct c s) = rd_draws s.
Proof.
  intros Hd. unfold construct, fast_prng_r_init, fast_prng_seed,
    secure_prng_r_init, prng_seed_default, incr_nonce.
  destruct c as [st []]; rewrite (prng_seed_initialised None s d Hd);
    cbn [fst snd]; by rewrite seed_d_set_nonce, rd_draws_set_nonce.
Qed.

Lemma seed_step_initialised ev s d :
  seed_d s = Some d →
  seed_d (seed_step s ev) = Some d ∧ rd_draws (seed_step s ev) = rd_draws s.
Proof.
  intros Hd. destruct ev as [ss | c]; cbn [seed_step].
  - by rewrite (prng_seed_initialised ss s d Hd).
  - by apply construct_initialised.
Qed.

Lemma seed_run_initialised evs : ∀ s d,
  seed_d s = Some d →
  seed_d (seed_run evs s) = Some d ∧ rd_draws (seed_run evs s) = rd_draws s.
Proof.
  induction evs as [| ev evs IH]; intros s d Hd; [done |].
  destruct (seed_step_initialised ev s d Hd) as [Hd1 Hr1].
  unfold seed_run in *. cbn [foldl].
  destruct (IH _ _ Hd1) as [-> ->]. done.
Qed.

(** X8. The first use decides the seed words of the whole process.  In
    any run of calls of [prng_seed] and constructions of generators from
    the start of the process: if the first event is a call with a seed
    sequence, the seed words are the ones generated from it and the
    entropy source is never read; otherwise they are generated from
    the first eight draws of the entropy source, and no later event
    draws from it again. *)
Theorem seed_decided_by_first_event (evs : list seed_event) :
  let s := seed_run evs statics0 in
  match evs with
  | [] => seed_d s = None ∧ rd_draws s = 0%nat
  | Seed_call (Some ss) :: _ =>
      seed_d s = Some (seed_seq_generate ss) ∧ rd_draws s = 0%nat
  | _ :: _ =>
      seed_d s = Some (seed_seq_generate entropy_seed_seq) ∧
      rd_draws s = 8%nat
  end.
Proof.
  destruct evs as [| ev evs]; [done |].
  cbn zeta. unfold seed_run. cbn [foldl].
  destruct ev as [[ss |] | c].
  - by apply seed_run_initialised.
  - by apply seed_run_initialised.
  - assert (seed_d (construct c statics0) = Some (seed_seq_generate entropy_seed_seq)
            ∧ rd_draws (construct c statics0) = 8%nat) as [Hd Hr].
    { assert (prng_seed None statics0 =
                (seed_seq_generate entropy_seed_seq,
                 set_seed_d (seed_seq_generate entropy_seed_seq)
                            (set_rd_draws 8 statics0))) as Hseed by reflexivity.
      unfold construct, fast_prng_r_init, fast_prng_seed, secure_prng_r_init,
        prng_seed_default, incr_nonce.
      destruct c as [st []]; rewrite Hseed; cbn [fst snd];
        by rewrite seed_d_set_nonce, rd_draws_set_nonce. }
    destruct (seed_run_initialised evs _ _ Hd) as [Hd1 Hr1].
    unfold seed_run in *. cbn [seed_step]. by rewrite Hd1, Hr1.
Qed.

(** ** Distinct nonces, equal streams *)

Lemma fast_prng_r_init_initialised st s pv :
  seed_d s = Some pv → 0 ≤ nonce (st, Fast) s < 2 ^ 64 - 1 →
  (fast_prng_r_init st s).1 =
    minstd_rand_ctor (wrap32 (sum_pv pv + nonce (st, Fast) s + 1)).
Proof.
  intros Hd Hn. unfold fast_prng_r_init, fast_prng_seed, prng_seed_default,
    incr_nonce, to_value_type.
  rewrite (prng_seed_initialised None s pv Hd). cbn [fst snd].
  rewrite wrap32_wrap64, wrap64_small by lia. f_equal. f_equal. lia.
Qed.

(** X9. Different nonces do not always give different Fast streams.  If
    the seed words and the counter of a Fast class are such that the
    next seed, [sum + nonce + 1] modulo [2^32], is zero, then the next
    two generators of that class, which draw different nonces, are
    seeded with 0 and 1; the engine starts from state 1 in both cases,
    and the two generators produce the same words. *)
Theorem fast_streams_can_coincide (st : strategy) (s : statics) (pv : data)
    (n : nat) :
  seed_d s = Some pv →
  0 ≤ nonce (st, Fast) s → nonce (st, Fast) s + 2 < 2 ^ 64 →
  wrap32 (sum_pv pv + nonce (st, Fast) s + 1) = 0 →
  nonce (st, Fast) (construct (st, Fast) s) ≠
    nonce (st, Fast) (construct (st, Fast) (construct (st, Fast) s)) ∧
  stream (st, Fast) n s = stream (st, Fast) n (construct (st, Fast) s).
Proof.
  intros Hd Hn0 Hn2 Hzero.
  destruct (construct_initialised (st, Fast) s pv Hd) as [Hd1 _].
  assert (nonce (st, Fast) (construct (st, Fast) s) = nonce (st, Fast) s + 1)
    as Hn1 by (apply construct_nonce_same; lia).
  split.
  - rewrite (construct_nonce_same _ (construct (st, Fast) s)) by lia. lia.
  - unfold stream.
    rewrite (fast_prng_r_init_initialised st s pv Hd) by lia.
    rewrite (fast_prng_r_init_initialised st _ pv Hd1) by lia.
    rewrite Hn1, Hzero.
    replace (sum_pv pv + (nonce (st, Fast) s + 1) + 1)
      with ((sum_pv pv + nonce (st, Fast) s + 1) + 1) by lia.
    rewrite <- wrap32_add_l, Hzero. done.
Qed.
End seed_more.

(** ** The pooled factory *)

Lemma fast_ptrs_elem p hs : p ∈ fast_ptrs hs ↔ FastRef p ∈ hs.
Proof.
  unfold fast_ptrs. rewrite list_elem_of_omap. split.
  - intros ([q | q] & Hq & Heq); by simplify_eq.
  - intros Hp. by exists (FastRef p).
Qed.

Lemma secure_ptrs_elem p hs : p ∈ secure_ptrs hs ↔ SecureRef p ∈ hs.
Proof.
  unfold secure_ptrs. rewrite list_elem_of_omap. split.
  - intros ([q | q] & Hq & Heq); by simplify_eq.
  - intros Hp. by exists (SecureRef p).
Qed.

Lemma handles_NoDup p l : NoDup l → p ∈ l → handles p l = 1.
Proof.
  intros Hnd Hp. unfold handles.
  pose proof (proj1 (NoDup_count_occ Nat.eq_dec l)
                (proj1 (NoDup_ListNoDup l) Hnd) p) as Hle.
  apply list_elem_of_In, (count_occ_In Nat.eq_dec) in Hp. lia.
Qed.

Section no_tls_facts.
Context `{Platform}.

Lemma make_prng_no_tls_kept_ok secure hs pr :
  kept_ok hs pr →
  match make_prng_no_tls secure pr with
  | Returns r pr1 => kept_ok (r :: hs) pr1
  | Throws_bad_alloc pr1 => kept_ok hs pr1
  | Undefined => False
  end.
Proof.
  intros (Hnd & Hndf & Hnds & Hf & Hs). unfold make_prng_no_tls.
  destruct secure.
  - destruct (prng_pool_acquire (secure_world pr)) as [p w | w |] eqn:Hacq.
    + pose proof (pool_inv_acquire_not_held _ _ _ _ Hs Hacq) as Hnew.
      pose proof (pool_inv_prng_pool_acquire _ _ _ _ Hs Hacq) as Hs1.
      split_and!.
      * apply NoDup_cons. split; [by rewrite <- secure_ptrs_elem | done].
      * done.
      * cbn. by apply NoDup_cons.
      * apply (pool_inv_statics (fast_world pr) _ (gl w) Hf).
      * by destruct w.
    + pose proof (pool_inv_prng_pool_acquire_throws _ _ _ Hs Hacq) as Hs1.
      split_and!; [done | done | done | | by destruct w].
      apply (pool_inv_statics (fast_world pr) _ (gl w) Hf).
    + unfold prng_pool_acquire, ref_ctor, acquire in Hacq.
      pose proof (pool_inv_elim _ _ Hs) as (_ & Hc & _).
      destruct (head_ (secure_world pr)) as [p0 |] eqn:Hh.
      * inversion Hc as [| p1 o fl Hp0 _ Heq]; subst.
        destruct (pool_inv_hit _ _ _ _ Hs Hh Hp0) as (_ & Heq1 & _).
        unfold prng_pool_acquire, ref_ctor, acquire in Heq1.
        rewrite Hh in Heq1. congruence.
      * destruct (aligned_alloc _) eqn:Ha; [| done].
        pose proof (prng_pool_acquire_miss _ Hh Ha) as Heq1.
        unfold prng_pool_acquire, ref_ctor, acquire in Heq1.
        rewrite Hh, Ha in Heq1. cbn zeta in Heq1. congruence.
  - destruct (prng_pool_acquire (fast_world pr)) as [p w | w |] eqn:Hacq.
    + pose proof (pool_inv_acquire_not_held _ _ _ _ Hf Hacq) as Hnew.
      pose proof (pool_inv_prng_pool_acquire _ _ _ _ Hf Hacq) as Hf1.
      split_and!.
      * apply NoDup_cons. split; [by rewrite <- fast_ptrs_elem | done].
      * cbn. by apply NoDup_cons.
      * done.
      * by destruct w.
      * apply (pool_inv_statics (secure_world pr) _ (gl w) Hs).
    + pose proof (pool_inv_prng_pool_acquire_throws _ _ _ Hf Hacq) as Hf1.
      split_and!; [done | done | done | by destruct w |].
      apply (pool_inv_statics (secure_world pr) _ (gl w) Hs).
    + unfold prng_pool_acquire, ref_ctor, acquire in Hacq.
      pose proof (pool_inv_elim _ _ Hf) as (_ & Hc & _).
      destruct (head_ (fast_world pr)) as [p0 |] eqn:Hh.
      * inversion Hc as [| p1 o fl Hp0 _ Heq]; subst.
        destruct (pool_inv_hit _ _ _ _ Hf Hh Hp0) as (_ & Heq1 & _).
        unfold prng_pool_acquire, ref_ctor, acquire in Heq1.
        rewrite Hh in Heq1. congruence.
      * destruct (aligned_alloc _) eqn:Ha; [| done].
        pose proof (prng_pool_acquire_miss _ Hh Ha) as Heq1.
        unfold prng_pool_acquire, ref_ctor, acquire in Heq1.
        rewrite Hh, Ha in Heq1. cbn zeta in Heq1. congruence.
Qed.

Lemma make_prng_no_tls_calls_kept_ok bs : ∀ hs pr,
  kept_ok hs pr →
  ∃ hs1 pr1, make_prng_no_tls_calls bs hs pr = Some (hs1, pr1) ∧
             kept_ok hs1 pr1.
Proof.
  induction bs as [| b bs IH]; intros hs pr Hok; [by exists hs, pr |].
  cbn [make_prng_no_tls_calls].
  pose proof (make_prng_no_tls_kept_ok b hs pr Hok) as Hstep.
  destruct (make_prng_no_tls b pr) as [r pr1 | pr1 |]; [| | done]; by apply IH.
Qed.

(** X10. Any number of calls of [make_prng_no_tls], for either variant
    and with the allocator failing whenever it does, is defined when
    every handle returned is kept; the handles returned are on pairwise
    distinct instances, each with reference count 1. *)
Theorem make_prng_no_tls_calls_distinct (bs : list bool) :
  ∃ hs pr, make_prng_no_tls_calls bs [] process0 = Some (hs, pr) ∧
    NoDup hs ∧
    (∀ p, FastRef p ∈ hs → refcount p (fast_world pr) = Some 1) ∧
    (∀ p, SecureRef p ∈ hs → refcount p (secure_world pr) = Some 1).
Proof.
  destruct (make_prng_no_tls_calls_kept_ok bs [] process0)
    as (hs & pr & Hrun & Hnd & Hndf & Hnds & Hf & Hs).
  { split_and!; try constructor; apply pool_inv_init. }
  exists hs, pr. split_and!; [done | done | |].
  - intros p Hp%fast_ptrs_elem.
    pose proof (pool_inv_elim _ _ Hf) as (_ & _ & Hlive & Hobj).
    destruct (Hlive p Hp) as [o Ho]. destruct (Hobj p o Ho) as [Hrefs _].
    unfold refcount. rewrite Ho. cbn. f_equal.
    by rewrite Hrefs, handles_NoDup.
  - intros p Hp%secure_ptrs_elem.
    pose proof (pool_inv_elim _ _ Hs) as (_ & _ & Hlive & Hobj).
    destruct (Hlive p Hp) as [o Ho]. destruct (Hobj p o Ho) as [Hrefs _].
    unfold refcount. rewrite Ho. cbn. f_equal.
    by rewrite Hrefs, handles_NoDup.
Qed.
End no_tls_facts.

(** ** Threads and their generators *)

Section tls_more.
Context `{Platform}.

Lemma make_prng_tls_world t secure w :
  (make_prng_tls t secure w).2 =
  if secure then
    match sp w !! t with
    | Some _ => w
    | None => TlsWorld (secure_prng_r_init Tls (tgl w)).2 (fp w)
                       (<[t := (secure_prng_r_init Tls (tgl w)).1]> (sp w))
    end
  else
    match fp w !! t with
    | Some _ => w
    | None => TlsWorld (fast_prng_r_init Tls (tgl w)).2
                       (<[t := (fast_prng_r_init Tls (tgl w)).1]> (fp w)) (sp w)
    end.
Proof.
  unfold make_prng_tls, tls_ref_ctor, tls_acquire. destruct secure.
  - destruct (sp w !! t); [done |]. by destruct (secure_prng_r_init Tls (tgl w)).
  - destruct (fp w !! t); [done |]. by destruct (fast_prng_r_init Tls (tgl w)).
Qed.

(** A call of the factory, by any thread, leaves the generators that
    exist as they are. *)
Lemma make_prng_tls_keeps r n t secure w :
  is_Some (tls_words r 0 w) →
  tls_words r n (make_prng_tls t secure w).2 = tls_words r n w.
Proof.
  intros Hr. rewrite make_prng_tls_world.
  destruct r as [t' []], secure; cbn [tls_words] in *.
  - by destruct (sp w !! t).
  - destruct (fp w !! t) eqn:Ht; [done |]. cbn [fp].
    destruct (decide (t = t')) as [-> | Hne].
    + rewrite Ht in Hr. by destruct Hr.
    + by rewrite lookup_insert_ne.
  - destruct (sp w !! t) eqn:Ht; [done |]. cbn [sp].
    destruct (decide (t = t')) as [-> | Hne].
    + rewrite Ht in Hr. by destruct Hr.
    + by rewrite lookup_insert_ne.
  - by destruct (fp w !! t).
Qed.

Lemma tls_call_other r r' n w x w1 :
  tls_call r' w = Some (x, w1) → r' ≠ r →
  tls_words r n w1 = tls_words r n w.
Proof.
  intros Hcall Hne. destruct r' as [t' []]; cbn [tls_call] in Hcall.
  - destruct (fp w !! t') as [e |]; [| done]. cbn [mbind option_bind] in Hcall.
    destruct (minstd_rand_call e) as [y e1]. simplify_eq.
    destruct r as [t []]; cbn [tls_words fp sp]; [| done].
    rewrite lookup_insert_ne; [done | congruence].
  - destruct (sp w !! t') as [e |]; [| done]. cbn [mbind option_bind] in Hcall.
    destruct (chacha_call e) as [y e1]. simplify_eq.
    destruct r as [t []]; cbn [tls_words fp sp]; [done |].
    rewrite lookup_insert_ne; [done | congruence].
Qed.

Lemma tls_call_same r n w x w1 :
  tls_call r w = Some (x, w1) →
  tls_words r (S n) w = (x ::.) <$> tls_words r n w1.
Proof.
  intros Hcall. destruct r as [t []]; cbn [tls_call tls_words] in *.
  - destruct (fp w !! t) as [e |]; [| done]. cbn [mbind option_bind] in Hcall. cbn [fmap option_fmap option_map words].
    destruct (minstd_rand_call e) as [y e1]. simplify_eq.
    cbn [fp]. by rewrite lookup_insert_eq.
  - destruct (sp w !! t) as [e |]; [| done]. cbn [mbind option_bind] in Hcall. cbn [fmap option_fmap option_map words].
    destruct (chacha_call e) as [y e1]. simplify_eq.
    cbn [sp]. by rewrite lookup_insert_eq.
Qed.

Lemma tls_words_is_Some r n w :
  is_Some (tls_words r n w) ↔ is_Some (tls_words r 0 w).
Proof. destruct r as [t []]; cbn [tls_words]; by rewrite !fmap_is_Some. Qed.

Lemma tls_call_is_Some r r' w x w1 :
  tls_call r' w = Some (x, w1) →
  is_Some (tls_words r 0 w) → is_Some (tls_words r 0 w1).
Proof.
  intros Hcall Hr. destruct (decide (r' = r)) as [-> | Hne].
  - apply (tls_call_same r 0) in Hcall.
    apply (tls_words_is_Some r 1) in Hr. rewrite Hcall in Hr.
    by apply fmap_is_Some in Hr.
  - by rewrite (tls_call_other r r' 0 w x w1 Hcall Hne).
Qed.

(** X11. The words a thread draws are its own.  In any run of calls of
    the factory and draws by any threads, the words drawn through a
    handle on a generator that exists at the start are, in order, the
    next words of that generator: neither the calls of the factory (by
    the same or by other threads) nor the draws through other handles
    change them. *)
Theorem tls_words_isolated (r : tls_ref) (evs : list tls_event) :
  ∀ w ds w1,
    is_Some (tls_words r 0 w) →
    tls_run evs w = Some (ds, w1) →
    tls_words r (draws_of r evs) w = Some (drawn_by r ds).
Proof.
  unfold draws_of, drawn_by.
  induction evs as [| ev evs IH]; intros w ds w1 Hr Hrun.
  - cbn in Hrun. simplify_eq. cbn.
    destruct r as [t []]; cbn [tls_words] in *;
      [destruct (fp _ !! t) | destruct (sp _ !! t)];
      first [done | by destruct Hr].
  - destruct ev as [t secure | r']; cbn [tls_run] in Hrun.
    + rewrite filter_cons_False by done.
      rewrite <- (make_prng_tls_keeps r _ t secure w Hr).
      apply (IH _ _ _ ltac:(by rewrite make_prng_tls_keeps) Hrun).
    + destruct (tls_call r' w) as [[x w2] |] eqn:Hcall; [| done].
      destruct (tls_run evs w2) as [[ds2 w3] |] eqn:Hrun2; [| done].
      simplify_eq.
      pose proof (tls_call_is_Some r r' w x w2 Hcall Hr) as Hr2.
      pose proof (IH _ _ _ Hr2 Hrun2) as IH2.
      destruct (decide (r' = r)) as [-> | Hne].
      * rewrite !filter_cons_True by done. cbn [length fmap list_fmap snd].
        rewrite (tls_call_same r _ w x w2 Hcall), IH2. done.
      * rewrite filter_cons_False by congruence.
        rewrite filter_cons_False by (cbn; congruence).
        by rewrite <- (tls_call_other r r' _ w x w2 Hcall Hne).
Qed.

(** The counters of the two thread-local classes count the generators
    that exist. *)
Lemma make_prng_tls_counts t secure w :
  Z.of_nat (size (fp w)) < 2 ^ 64 - 1 → Z.of_nat (size (sp w)) < 2 ^ 64 - 1 →
  nonce (Tls, Fast) (tgl w) = Z.of_nat (size (fp w)) →
  nonce (Tls, Secure) (tgl w) = Z.of_nat (size (sp w)) →
  let w1 := (make_prng_tls t secure w).2 in
  nonce (Tls, Fast) (tgl w1) = Z.of_nat (size (fp w1)) ∧
  nonce (Tls, Secure) (tgl w1) = Z.of_nat (size (sp w1)) ∧
  (size (fp w1) ≤ S (size (fp w)))%nat ∧
  (size (sp w1) ≤ S (size (sp w)))%nat ∧
  (∀ t', is_Some (fp w1 !! t') ↔
         is_Some (fp w !! t') ∨ (t' = t ∧ secure = false)) ∧
  (∀ t', is_Some (sp w1 !! t') ↔
         is_Some (sp w !! t') ∨ (t' = t ∧ secure = true)).
Proof.
  intros Hbf Hbs Hf Hs. cbn zeta. rewrite make_prng_tls_world.
  destruct secure.
  - destruct (sp w !! t) as [e |] eqn:Ht.
    + split_and!; [done | done | lia | lia | intuition congruence |].
      intros t'. split; [by left |]. intros [? | [-> _]]; [done | by rewrite Ht].
    + change (secure_prng_r_init Tls (tgl w)).2
        with (construct (Tls, Secure) (tgl w)).
      cbn [tgl fp sp]. rewrite !construct_nonce.
      rewrite decide_False, decide_True by done.
      rewrite map_size_insert_None by done.
      split_and!; [done | rewrite wrap64_small; lia | lia | lia | intuition congruence |].
      intros t'. rewrite lookup_insert_is_Some. split.
      * intros [<- | [_ ?]]; [by right | by left].
      * intros [? | [-> _]]; [| by left].
        destruct (decide (t = t')); [by left | by right].
  - destruct (fp w !! t) as [e |] eqn:Ht.
    + split_and!; [done | done | lia | lia | | intuition congruence].
      intros t'. split; [by left |]. intros [? | [-> _]]; [done | by rewrite Ht].
    + change (fast_prng_r_init Tls (tgl w)).2
        with (construct (Tls, Fast) (tgl w)).
      cbn [tgl fp sp]. rewrite !construct_nonce.
      rewrite decide_True, decide_False by done.
      rewrite map_size_insert_None by done.
      split_and!; [rewrite wrap64_small; lia | done | lia | lia | | intuition congruence].
      intros t'. rewrite lookup_insert_is_Some. split.
      * intros [<- | [_ ?]]; [by right | by left].
      * intros [? | [-> _]]; [| by left].
        destruct (decide (t = t')); [by left | by right].
Qed.

Lemma tls_call_counts r w x w1 :
  tls_call r w = Some (x, w1) →
  tgl w1 = tgl w ∧ size (fp w1) = size (fp w) ∧ size (sp w1) = size (sp w) ∧
  (∀ t, is_Some (fp w1 !! t) ↔ is_Some (fp w !! t)) ∧
  (∀ t, is_Some (sp w1 !! t) ↔ is_Some (sp w !! t)).
Proof.
  intros Hcall. destruct r as [t []]; cbn [tls_call] in Hcall.
  - destruct (fp w !! t) as [e |] eqn:Ht; [| done].
    cbn [mbind option_bind] in Hcall.
    destruct (minstd_rand_call e) as [y e1]. simplify_eq. cbn [tgl fp sp].
    rewrite map_size_insert_Some by (by rewrite Ht).
    split_and!; [done | done | done | | done].
    intros t'. rewrite lookup_insert_is_Some.
    destruct (decide (t = t')) as [<- | ?]; [| tauto].
    rewrite Ht. split; [by eexists | by left].
  - destruct (sp w !! t) as [e |] eqn:Ht; [| done].
    cbn [mbind option_bind] in Hcall.
    destruct (chacha_call e) as [y e1]. simplify_eq. cbn [tgl fp sp].
    rewrite map_size_insert_Some by (by rewrite Ht).
    split_and!; [done | done | done | done |].
    intros t'. rewrite lookup_insert_is_Some.
    destruct (decide (t = t')) as [<- | ?]; [| tauto].
    rewrite Ht. split; [by eexists | by left].
Qed.

Lemma tls_run_counts evs : ∀ w ds w1,
  Z.of_nat (size (fp w)) + Z.of_nat (length evs) < 2 ^ 64 →
  Z.of_nat (size (sp w)) + Z.of_nat (length evs) < 2 ^ 64 →
  nonce (Tls, Fast) (tgl w) = Z.of_nat (size (fp w)) →
  nonce (Tls, Secure) (tgl w) = Z.of_nat (size (sp w)) →
  tls_run evs w = Some (ds, w1) →
  nonce (Tls, Fast) (tgl w1) = Z.of_nat (size (fp w1)) ∧
  nonce (Tls, Secure) (tgl w1) = Z.of_nat (size (sp w1)) ∧
  (∀ t, is_Some (fp w1 !! t) ↔ is_Some (fp w !! t) ∨ Tls_make t false ∈ evs) ∧
  (∀ t, is_Some (sp w1 !! t) ↔ is_Some (sp w !! t) ∨ Tls_make t true ∈ evs).
Proof.
  induction evs as [| ev evs IH]; intros w ds w1 Hbf Hbs Hf Hs Hrun.
  - cbn in Hrun. simplify_eq.
    split_and!; [done | done | |]; intros t; rewrite elem_of_nil; tauto.
  - cbn [length] in Hbf, Hbs. destruct ev as [t secure | r]; cbn [tls_run] in Hrun.
    + destruct (make_prng_tls_counts t secure w) as (Hf1 & Hs1 & Hlf & Hls & Hdf & Hds);
        [lia | lia | done | done |].
      cbn zeta in *.
      destruct (IH (make_prng_tls t secure w).2 ds w1)
        as (Hf2 & Hs2 & Hdf2 & Hds2); [lia | lia | done | done | done |].
      split_and!; [done | done | |]; intros t'.
      * rewrite Hdf2, Hdf, elem_of_cons. destruct secure; intuition congruence.
      * rewrite Hds2, Hds, elem_of_cons. destruct secure; intuition congruence.
    + destruct (tls_call r w) as [[x w2] |] eqn:Hcall; [| done].
      destruct (tls_run evs w2) as [[ds2 w3] |] eqn:Hrun2; [| done].
      simplify_eq.
      destruct (tls_call_counts r w x w2 Hcall) as (Hg & Hzf & Hzs & Hdf & Hds).
      destruct (IH w2 ds2 w1) as (Hf2 & Hs2 & Hdf2 & Hds2);
        [rewrite Hzf; lia | rewrite Hzs; lia | by rewrite Hg, Hzf
         | by rewrite Hg, Hzs | done |].
      split_and!; [done | done | |]; intros t'.
      * rewrite Hdf2, Hdf, elem_of_cons. intuition congruence.
      * rewrite Hds2, Hds, elem_of_cons. intuition congruence.
Qed.

(** X12. One generator per thread and variant, made on first use.  In
    any run, of fewer than [2^64] events, of calls of the factory and
    draws from the start of the process: the Fast generator of a thread
    exists if and only if that thread has called the factory for a Fast
    handle, likewise for Secure, and the number of generators
    constructed of each class (its nonce counter) is the number of
    threads that have one; no call constructs a second generator for a
    thread that has one. *)
Theorem make_prng_tls_once_per_thread (evs : list tls_event) ds w :
  Z.of_nat (length evs) < 2 ^ 64 →
  tls_run evs tls_world0 = Some (ds, w) →
  nonce (Tls, Fast) (tgl w) = Z.of_nat (size (fp w)) ∧
  nonce (Tls, Secure) (tgl w) = Z.of_nat (size (sp w)) ∧
  (∀ t, is_Some (fp w !! t) ↔ Tls_make t false ∈ evs) ∧
  (∀ t, is_Some (sp w !! t) ↔ Tls_make t true ∈ evs).
Proof.
  intros Hlen Hrun.
  destruct (tls_run_counts evs tls_world0 ds w) as (Hf & Hs & Hdf & Hds);
    [done | done | done | done | done |].
  split_and!; [done | done | |]; intros t.
  - rewrite Hdf. cbn [fp tls_world0]. rewrite lookup_empty.
    split; [intros [[? ?] | ?]; done | by right].
  - rewrite Hds. cbn [sp tls_world0]. rewrite lookup_empty.
    split; [intros [[? ?] | ?]; done | by right].
Qed.
End tls_more.

(** ** Reuse before allocation *)

Section reuse_order.
Context `{Platform} {E : Type} `{!Engine E}.
Implicit Types (w : world E) (live : list nat).

Lemma prng_pool_acquires_pool_inv k : ∀ w live,
  pool_inv w live → (k ≤ length (free_list w))%nat →
  ∃ w1, prng_pool_acquires k w = Returns (take k (free_list w)) w1 ∧
        free_list w1 = drop k (free_list w) ∧
        gl w1 = gl w ∧ length (mem w1) = length (mem w).
Proof.
  induction k as [| k IH]; intros w live Hinv Hk.
  - exists w. by rewrite take_0, drop_0.
  - pose proof (pool_inv_elim w live Hinv) as (_ & Hc & _).
    destruct (free_list w) as [| p rest] eqn:Hfl; [cbn in Hk; lia |].
    inversion Hc as [| p' o fl Hp _ Hh]; subst.
    destruct (pool_inv_hit w live p o Hinv (eq_sym Hh) Hp)
      as (_ & Hacq & Hinv1 & Hfl1).
    rewrite Hfl in Hfl1. injection Hfl1 as Hfl1. cbn in Hk.
    destruct (IH _ _ Hinv1) as (w2 & Hrun & Hfl2 & Hgl & Hlen);
      [rewrite <- Hfl1; lia |].
    exists w2. cbn [prng_pool_acquires take drop]. rewrite Hacq, Hrun.
    rewrite <- Hfl1. split_and!; [done | by rewrite Hfl2, <- Hfl1 | done |].
    rewrite Hlen. cbn [mem]. by rewrite length_insert.
Qed.

(** X13. The pool allocates only when it has nothing idle, and reuses
    most recently returned first.  In every reachable world, taking [k]
    handles in a row, [k] being at most the length of the free list,
    returns the first [k] instances of the free list in list order; the
    rest of the list stays, no object is added, and the statics are
    untouched: no allocation, no construction, no nonce drawn. *)
Theorem prng_pool_acquires_reuse w live k :
  reachable w live → (k ≤ length (free_list w))%nat →
  ∃ w1, prng_pool_acquires k w = Returns (take k (free_list w)) w1 ∧
        free_list w1 = drop k (free_list w) ∧
        gl w1 = gl w ∧ length (mem w1) = length (mem w).
Proof.
  intros Hinv%reachable_pool_inv. by eapply prng_pool_acquires_pool_inv.
Qed.
End reuse_order.

(** ** The seeds of successive Fast generators *)

Section seed_progression.
Context `{Platform}.

Lemma construct_iter c i : ∀ s d,
  seed_d s = Some d → 0 ≤ nonce c s → nonce c s + Z.of_nat i < 2 ^ 64 →
  seed_d (Nat.iter i (construct c) s) = Some d ∧
  nonce c (Nat.iter i (construct c) s) = nonce c s + Z.of_nat i.
Proof.
  induction i as [| i IH]; intros s d Hd Hn0 Hn.
  - split; [done | cbn; lia].
  - destruct (IH s d Hd Hn0) as [Hd1 Hn1]; [lia |].
    rewrite Nat.iter_succ.
    destruct (construct_initialised c _ d Hd1) as [Hd2 _].
    split; [done |]. rewrite construct_nonce_same; lia.
Qed.

(** X14. The seeds of the Fast generators of one class step by one.
    Once the seed words are computed, the generator constructed after
    [i] others of its class (and before the counter wraps) is seeded
    with [sum + nonce + i + 1] modulo [2^32], [nonce] being the counter
    before the first of them: its words are those of the standard engine
    started from that seed. *)
Theorem fast_seed_progression (st : strategy) (s : statics) (pv : data)
    (i n : nat) :
  seed_d s = Some pv →
  0 ≤ nonce (st, Fast) s →
  nonce (st, Fast) s + Z.of_nat i + 1 < 2 ^ 64 →
  stream (st, Fast) n (Nat.iter i (construct (st, Fast)) s) =
  words minstd_rand_call n
    (minstd_rand_ctor
       (wrap32 (sum_pv pv + nonce (st, Fast) s + Z.of_nat i + 1))).
Proof.
  intros Hd Hn0 Hn.
  destruct (construct_iter (st, Fast) i s pv Hd Hn0) as [Hd1 Hn1]; [lia |].
  unfold stream.
  rewrite (fast_prng_r_init_initialised st _ pv Hd1) by lia.
  rewrite Hn1. do 3 f_equal. lia.
Qed.
End seed_progression.

(** ** Reuse after the last release *)

Section last_release.
Context `{Platform} {E : Type} `{!Engine E}.
Implicit Types (w : world E) (live : list nat) (o : pooled E).

(** C4, as amended.  In every reachable world, whatever happened since
    the instance was handed out (draws, and acquisitions and releases of
    other handles of the pool): if a handle is the only one on its
    instance, releasing it destroys nothing (statics and generator are
    as before), and if no other acquisition or release of this pool
    comes between this release and the next acquisition, whatever
    happens to the statics meanwhile, that acquisition returns the same
    instance, held once, without seeding anything (it leaves the statics
    as it finds them and the generator as it was when the handle was
    released), so that the words drawn next are the ones that would have
    been drawn had the handle been kept. *)
Theorem pool_reuse_last_handle w live r o :
  reachable w live → mem w !! r = Some o → handles r live = 1 →
  ∃ w3, ref_dtor r w = Returns () w3 ∧
    gl w3 = gl w ∧
    r_ <$> mem w3 !! r = Some (r_ o) ∧
    ∀ g, ∃ w4,
      prng_pool_acquire (World g (head_ w3) (mem w3)) = Returns r w4 ∧
      gl w4 = g ∧
      refcount r w4 = Some 1 ∧
      r_ <$> mem w4 !! r = Some (r_ o) ∧
      ∀ k, ∃ ys w5 w6,
        ref_calls k r w4 = Returns ys w5 ∧
        ref_calls k r w = Returns ys w6.
Proof.
  intros Hinv%reachable_pool_inv Hr Hsole.
  destruct Hinv as (fl & _ & _ & _ & Hobj).
  destruct (Hobj r o Hr) as [Hrefs _]. rewrite Hsole in Hrefs.
  destruct (release_prng_pool_acquire w r o Hr Hrefs)
    as (w3 & Hdrop & Hgl & Hr3 & Hagain).
  exists w3. split_and!; [done | done | done |].
  intros g. eexists. split; [by apply Hagain |].
  assert (Hr4 : <[r := set_next (head_ w) o]> (mem w) !! r =
                  Some (set_next (head_ w) o))
    by (by rewrite (lookup_insert_mem _ _ _ _ _ Hr), decide_True).
  cbn [gl mem]. unfold refcount. cbn [mem]. rewrite Hr4.
  split_and!; [done | by cbn; rewrite Hrefs | done |].
  intros k.
  edestruct (ref_calls_Returns k r
               (World g (head_ w) (<[r := set_next (head_ w) o]> (mem w))))
    as [e4 He4]; [exact Hr4 |].
  destruct (ref_calls_Returns k r w o Hr) as [e He].
  eexists _, _, _. split; [exact He4 | exact He].
Qed.
End last_release.

(** ** The properties on concrete worlds *)

#[local] Existing Instance demo_platform.

(** C1, as first stated, fails: the first Fast and the first Secure
    object of the pooled strategy both draw the nonce 1, because each
    class counts on its own; so nonces are not unique across variants. *)
Lemma nonce_shared_by_variants :
  constructions (H := demo_platform) [(NoTls, Fast); (NoTls, Secure)] statics0
    = [((NoTls, Fast), 1); ((NoTls, Secure), 1)] ∧
  match make_prng_no_tls (H := demo_platform) false process0 with
  | Returns (FastRef 0%nat) pr1 =>
      match make_prng_no_tls true pr1 with
      | Returns (SecureRef 0%nat) pr2 =>
          nonce (NoTls, Fast) (pstatics pr2) = 1 ∧
          nonce (NoTls, Secure) (pstatics pr2) = 1
      | _ => False
      end
  | _ => False
  end ∧
  ¬ (∀ (cs : list prng_class) (i j : nat) (ci cj : prng_class) (ni nj : Z),
       Z.of_nat (length cs) < 2 ^ 64 → i ≠ j →
       constructions (H := demo_platform) cs statics0 !! i = Some (ci, ni) →
       constructions (H := demo_platform) cs statics0 !! j = Some (cj, nj) →
       ni ≠ nj).
Proof.
  split_and!; [reflexivity | by vm_compute |].
  intros Hall.
  apply (Hall [(NoTls, Fast); (NoTls, Secure)] 0%nat 1%nat
              (NoTls, Fast) (NoTls, Secure) 1 1);
    [by vm_compute | lia | reflexivity | reflexivity | reflexivity].
Qed.

(** Three constructions, two of them pooled Fast objects: their nonces
    are 1 and 2. *)
Lemma nonce_unique_per_class_witness :
  let cs := [(NoTls, Fast); (NoTls, Secure); (NoTls, Fast)] in
  let run := constructions (H := demo_platform) cs statics0 in
  (Z.of_nat (length cs) < 2 ^ 64 ∧ 0%nat ≠ 2%nat ∧
   run !! 0%nat = Some ((NoTls, Fast), 1) ∧
   run !! 2%nat = Some ((NoTls, Fast), 2)) ∧
  ((1 : Z) ≠ 2 ∧ ((0 < 2)%nat → (1 : Z) < 2)).
Proof.
  intros cs run.
  assert (Z.of_nat (length cs) < 2 ^ 64) as Hlen by (by vm_compute).
  assert (0%nat ≠ 2%nat) as Hij by lia.
  assert (run !! 0%nat = Some ((NoTls, Fast), 1)) as H0 by reflexivity.
  assert (run !! 2%nat = Some ((NoTls, Fast), 2)) as H2 by reflexivity.
  split; [done |].
  exact (@nonce_unique_per_class demo_platform cs 0%nat 2%nat
           (NoTls, Fast) 1 2 Hlen Hij H0 H2).
Defined.

(** A pooled Fast object constructed at the start of the process and one
    constructed in [demo_statics] produce the same four words. *)
Lemma stream_determinism_witness :
  ((prng_seed_default (H := demo_platform) statics0).1 =
   (prng_seed_default (H := demo_platform) demo_statics).1 ∧
   nonce (NoTls, Fast) (construct (H := demo_platform) (NoTls, Fast) statics0) =
   nonce (NoTls, Fast) (construct (H := demo_platform) (NoTls, Fast) demo_statics)) ∧
  stream (H := demo_platform) (NoTls, Fast) 4 statics0 =
  stream (H := demo_platform) (NoTls, Fast) 4 demo_statics.
Proof.
  split; [split; reflexivity |].
  apply (@stream_determinism demo_platform (NoTls, Fast) 4%nat
           statics0 demo_statics); reflexivity.
Defined.

(** The three worlds of the pool of [fast_prng] are reachable. *)
Lemma demo_w0_reachable :
  reachable (H := demo_platform) (Engine0 := @fast_engine demo_platform) demo_w0 [].
Proof. exists statics0. apply rtc_refl. Defined.

Lemma demo_w1_reachable :
  reachable (H := demo_platform) (Engine0 := @fast_engine demo_platform) demo_w1 [0%nat].
Proof.
  exists statics0. eapply rtc_l; [| apply rtc_refl].
  by apply (step_make demo_w0 [] 0%nat demo_w1).
Defined.

Lemma demo_w2_reachable :
  reachable (H := demo_platform) (Engine0 := @fast_engine demo_platform) demo_w2 [].
Proof.
  exists statics0.
  eapply rtc_l; [by apply (step_make demo_w0 [] 0%nat demo_w1) |].
  eapply rtc_l; [| apply rtc_refl].
  by apply (step_drop demo_w1 [] 0%nat [] demo_w2).
Defined.

(** The handle on the only object of [demo_w1]: held once; acquiring
    makes the count 2, releasing makes it 0 and puts the object on the
    free list. *)
Lemma refcount_discipline_witness :
  (reachable (H := demo_platform) (Engine0 := @fast_engine demo_platform) demo_w1 [0%nat] ∧
   0%nat ∈ [0%nat] ∧
   mem demo_w1 !! 0%nat = Some (Pooled 1 (Minstd 221) None)) ∧
  (1 = handles 0 [0%nat] ∧ (0%nat ∉ free_list demo_w1) ∧
   (1 < INT_MAX →
      ∃ w1, acquire 0 demo_w1 = Returns 0%nat w1 ∧
            refcount 0 w1 = Some 2 ∧ free_list w1 = []) ∧
   (∃ w1, release 0 demo_w1 = Returns () w1 ∧
          refcount 0 w1 = Some 0 ∧ free_list w1 = [0%nat])).
Proof.
  assert (0%nat ∈ [0%nat]) as Hin by (by left).
  assert (mem demo_w1 !! 0%nat = Some (Pooled 1 (Minstd 221) None))
    as Hp by reflexivity.
  split; [by split_and!; [apply demo_w1_reachable | |] |].
  exact (@refcount_discipline demo_platform minstd_rand (@fast_engine demo_platform)
           demo_w1 [0%nat] 0%nat _ demo_w1_reachable Hin Hp).
Defined.

(** Taking a handle at the start of the process, drawing two words,
    dropping the handle and taking one again. *)
Lemma pool_reuse_witness :
  (reachable (H := demo_platform) (Engine0 := @fast_engine demo_platform) demo_w0 [] ∧
   prng_pool_acquire (H := demo_platform) demo_w0 = Returns 0%nat demo_w1) ∧
  ∃ xs w2 w3,
    ref_calls 2 0 demo_w1 = Returns xs w2 ∧
    ref_dtor 0 w2 = Returns () w3 ∧
    gl w3 = gl w2 ∧
    r_ <$> mem w3 !! 0%nat = r_ <$> mem w2 !! 0%nat ∧
    ∀ g,
      prng_pool_acquire (H := demo_platform) (World g (head_ w3) (mem w3)) =
        Returns 0%nat (World g (head_ w2) (mem w2)) ∧
      ∀ k, ∃ ys w5 w6,
        ref_calls k 0 (World g (head_ w2) (mem w2)) = Returns ys w5 ∧
        ref_calls (2 + k) 0 demo_w1 = Returns (xs ++ ys) w6.
Proof.
  assert (prng_pool_acquire (H := demo_platform) demo_w0 = Returns 0%nat demo_w1)
    as Hacq by reflexivity.
  split; [split; [apply demo_w0_reachable | done] |].
  exact (@pool_reuse demo_platform minstd_rand (@fast_engine demo_platform)
           demo_w0 [] 0%nat demo_w1 2%nat demo_w0_reachable Hacq).
Defined.

(** Asking the pool of [demo_w2], whose free list holds object 0. *)
Lemma prng_pool_acquire_cases_witness :
  reachable (H := demo_platform) (Engine0 := @fast_engine demo_platform) demo_w2 [] ∧
  ∃ o w1, head_ demo_w2 = Some 0%nat ∧ mem demo_w2 !! 0%nat = Some o ∧
    prng_pool_acquire (H := demo_platform) demo_w2 = Returns 0%nat w1 ∧
    free_list w1 = [] ∧
    mem w1 = <[0%nat := Pooled 1 (r_ o) (next o)]> (mem demo_w2) ∧
    refcount 0 w1 = Some 1 ∧
    gl w1 = gl demo_w2.
Proof.
  split; [apply demo_w2_reachable |].
  exact (@prng_pool_acquire_cases demo_platform minstd_rand (@fast_engine demo_platform)
           demo_w2 [] demo_w2_reachable).
Defined.

(** Asking the empty pool of [demo_w_oom] when the allocator fails. *)
Lemma prng_pool_acquire_bad_alloc_witness :
  (head_ demo_w_oom = None ∧
   aligned_alloc (Platform := demo_platform)
     (alloc_calls (gl demo_w_oom)) = false) ∧
  ∃ w1, prng_pool_acquire (H := demo_platform) demo_w_oom = Throws_bad_alloc w1 ∧
    head_ w1 = head_ demo_w_oom ∧ mem w1 = mem demo_w_oom ∧
    free_list w1 = free_list demo_w_oom ∧
    gl w1 = set_alloc_calls 3 (gl demo_w_oom) ∧
    (aligned_alloc (Platform := demo_platform) (alloc_calls (gl w1)) = true →
     ∃ p w2, prng_pool_acquire (H := demo_platform) w1 = Returns p w2).
Proof.
  split; [split; reflexivity |].
  exact (@prng_pool_acquire_bad_alloc demo_platform minstd_rand (@fast_engine demo_platform)
           demo_w_oom eq_refl eq_refl).
Defined.

(** At the start of the process the first pooled Fast generator and the
    first Fast generator of thread 5 are both seeded with
    3 + 10 + ... + 52 + 1 = 221. *)
Lemma fast_prng_seed_sum_witness :
  (pooled_ctor (E := minstd_rand) statics0).1 = Pooled 0 (Minstd 221) None ∧
  fp (make_prng_tls 5 false tls_world0).2 !! 5%nat = Some (Minstd 221).
Proof.
  pose proof (fast_prng_seed_sum NoTls statics0) as Hp.
  pose proof (fast_prng_seed_sum Tls statics0) as Ht.
  unfold fast_prng_r_init in Hp, Ht.
  destruct (prng_seed_default statics0) as [pv s0] eqn:Hs.
  assert (pv = demo_data) as -> by (by vm_compute in Hs; injection Hs as <- _).
  destruct (fast_prng_seed NoTls statics0) as [x s1] eqn:Hx.
  destruct (fast_prng_seed Tls statics0) as [y s2] eqn:Hy.
  assert (nonce (NoTls, Fast) s1 = 1) as Hn1
    by (by vm_compute in Hx; injection Hx as _ <-).
  assert (nonce (Tls, Fast) s2 = 1) as Hn2
    by (by vm_compute in Hy; injection Hy as _ <-).
  rewrite Hn1 in Hp. rewrite Hn2 in Ht.
  destruct Hp as (_ & _ & _ & _ & Hp & _).
  destruct Ht as (_ & _ & _ & _ & _ & Ht).
  split.
  - by rewrite (Hp eq_refl).
  - rewrite (Ht eq_refl 5%nat tls_world0 eq_refl (lookup_empty _)).
    cbn [snd fp]. by rewrite lookup_insert_eq.
Defined.

(** ** The further properties on concrete worlds *)

(** The object of [demo_w1] is held and not on the free list. *)
Lemma pool_partition_witness :
  reachable demo_w1 [0%nat] ∧
  (NoDup (free_list demo_w1) ∧
   (∀ r, r ∈ [0%nat] → (r < length (mem demo_w1))%nat) ∧
   (∀ p, p ∈ free_list demo_w1 → (p < length (mem demo_w1))%nat) ∧
   (∀ p, (p < length (mem demo_w1))%nat →
         (p ∈ free_list demo_w1 ↔ p ∉ [0%nat]))).
Proof.
  split; [apply demo_w1_reachable |].
  exact (@pool_partition demo_platform minstd_rand (@fast_engine demo_platform)
           demo_w1 [0%nat] demo_w1_reachable).
Defined.

(** The three-step run to [demo_w3] is reachable. *)
Lemma demo_w3_reachable : reachable demo_w3 [1%nat; 0%nat].
Proof.
  exists statics0.
  eapply rtc_l; [by apply (step_make demo_w0 [] 0%nat demo_w1) |].
  eapply rtc_l; [| apply rtc_refl].
  by apply (step_make demo_w1 [0%nat] 1%nat demo_w3).
Defined.

(** Asking the pool of [demo_w1] while object 0 is held: the free list
    is empty, and the pool hands out a new object, 1, not the one
    held. *)
Lemma prng_pool_acquire_exclusive_witness :
  (reachable demo_w1 [0%nat] ∧
   prng_pool_acquire demo_w1 = Returns 1%nat demo_w3) ∧
  ((1%nat ∉ [0%nat]) ∧ refcount 1 demo_w3 = Some 1 ∧
   reachable demo_w3 [1%nat; 0%nat]).
Proof.
  assert (prng_pool_acquire demo_w1 = Returns 1%nat demo_w3) as Hacq
    by reflexivity.
  split; [split; [apply demo_w1_reachable | done] |].
  exact (@prng_pool_acquire_exclusive demo_platform minstd_rand
           (@fast_engine demo_platform) demo_w1 [0%nat] 1%nat demo_w3
           demo_w1_reachable Hacq).
Defined.

(** Two words drawn through the handle of [demo_w1]. *)
Lemma ref_calls_frame_witness :
  mem demo_w1 !! 0%nat = Some (Pooled 1 (Minstd 221) None) ∧
  ∃ w1, ref_calls 2 0 demo_w1 =
          Returns (words r_call 2 (Minstd 221)) w1 ∧
    gl w1 = gl demo_w1 ∧ head_ w1 = head_ demo_w1 ∧
    free_list w1 = free_list demo_w1 ∧
    length (mem w1) = length (mem demo_w1) ∧
    (∀ q, q ≠ 0%nat → mem w1 !! q = mem demo_w1 !! q) ∧
    refs_ <$> mem w1 !! 0%nat = Some 1 ∧
    next <$> mem w1 !! 0%nat = Some None.
Proof.
  split; [reflexivity |].
  exact (@ref_calls_frame minstd_rand (@fast_engine demo_platform)
           2%nat 0%nat demo_w1 _ eq_refl).
Defined.

(** Copying the handle of [demo_w1] and dropping the copy. *)
Lemma ref_copy_dtor_roundtrip_witness :
  (reachable demo_w1 [0%nat] ∧ 0%nat ∈ [0%nat] ∧
   handles 0 [0%nat] < INT_MAX) ∧
  ∃ w1, ref_copy 0 demo_w1 = Returns 0%nat w1 ∧
        ref_dtor 0 w1 = Returns () demo_w1.
Proof.
  assert (0%nat ∈ [0%nat]) as Hin by (by left).
  assert (handles 0 [0%nat] < INT_MAX) as Hmax by (by vm_compute).
  split; [by split_and!; [apply demo_w1_reachable | |] |].
  exact (@ref_copy_dtor_roundtrip demo_platform minstd_rand
           (@fast_engine demo_platform) demo_w1 [0%nat] 0%nat
           demo_w1_reachable Hin Hmax).
Defined.

(** Three words drawn through the handle of [demo_w1]. *)
Lemma fast_handle_words_range_witness :
  (reachable demo_w1 [0%nat] ∧ 0%nat ∈ [0%nat]) ∧
  ∃ xs w1, ref_calls 3 0 demo_w1 = Returns xs w1 ∧
           Forall (λ x, 1 ≤ x ≤ 2 ^ 31 - 2) xs.
Proof.
  assert (0%nat ∈ [0%nat]) as Hin by (by left).
  split; [split; [apply demo_w1_reachable | done] |].
  exact (@fast_handle_words_range demo_platform demo_w1 [0%nat] 0%nat 3%nat
           demo_w1_reachable Hin).
Defined.

(** The first handle of the process: its words are those of the first
    pooled Fast generator. *)
Lemma fresh_handle_stream_witness :
  (head_ demo_w0 = None ∧ aligned_alloc (alloc_calls (gl demo_w0)) = true) ∧
  ∃ w1 w2,
    prng_pool_acquire demo_w0 = Returns 0%nat w1 ∧
    ref_calls 4 0 w1 =
      Returns (stream (NoTls, Fast) 4 (set_alloc_calls 1 statics0)) w2.
Proof.
  split; [split; reflexivity |].
  exact (proj1 (@fresh_handle_stream demo_platform 4%nat)
           demo_w0 eq_refl eq_refl).
Defined.

(** Tearing down the pool of [demo_w2] frees object 0. *)
Lemma prng_pool_dtor_frees_idle_witness :
  (reachable demo_w2 [] ∧ (length (mem demo_w2) ≤ 1)%nat) ∧
  (prng_pool_dtor 1 demo_w2 = Freed (free_list demo_w2) ∧
   NoDup (free_list demo_w2) ∧
   ∀ r, r ∈ @nil nat → r ∉ free_list demo_w2).
Proof.
  assert (length (mem demo_w2) ≤ 1)%nat as Hfuel by (cbn; lia).
  split; [split; [apply demo_w2_reachable | done] |].
  exact (@prng_pool_dtor_frees_idle demo_platform minstd_rand
           (@fast_engine demo_platform) demo_w2 [] 1%nat
           demo_w2_reachable Hfuel).
Defined.

(** With seed words of sum [2^32 - 1], the first two pooled Fast
    generators draw the nonces 1 and 2 and produce the same words. *)
Lemma fast_streams_can_coincide_witness :
  (seed_d demo_statics_wrap = Some (Data (2 ^ 32 - 1) 0 0 0 0 0 0 0) ∧
   0 ≤ nonce (NoTls, Fast) demo_statics_wrap ∧
   nonce (NoTls, Fast) demo_statics_wrap + 2 < 2 ^ 64 ∧
   wrap32 (sum_pv (Data (2 ^ 32 - 1) 0 0 0 0 0 0 0)
           + nonce (NoTls, Fast) demo_statics_wrap + 1) = 0) ∧
  (nonce (NoTls, Fast) (construct (NoTls, Fast) demo_statics_wrap) ≠
     nonce (NoTls, Fast)
       (construct (NoTls, Fast) (construct (NoTls, Fast) demo_statics_wrap)) ∧
   stream (NoTls, Fast) 5 demo_statics_wrap =
   stream (NoTls, Fast) 5 (construct (NoTls, Fast) demo_statics_wrap)).
Proof.
  assert (0 ≤ nonce (NoTls, Fast) demo_statics_wrap) as H0 by (by vm_compute).
  assert (nonce (NoTls, Fast) demo_statics_wrap + 2 < 2 ^ 64) as H2
    by (by vm_compute).
  split; [by split_and! |].
  exact (@fast_streams_can_coincide demo_platform NoTls demo_statics_wrap
           _ 5%nat eq_refl H0 H2 eq_refl).
Defined.

(** The run [demo_tls_events] after thread 1 has made its generator:
    the two words thread 1 draws are the next two of its generator. *)
Lemma tls_words_isolated_witness :
  is_Some (tls_words (1%nat, Fast) 0 demo_tls_w1) ∧
  match tls_run demo_tls_events demo_tls_w1 with
  | Some (ds, w1) =>
      tls_words (1%nat, Fast) (draws_of (1%nat, Fast) demo_tls_events)
        demo_tls_w1 = Some (drawn_by (1%nat, Fast) ds)
  | None => False
  end.
Proof.
  assert (is_Some (tls_words (1%nat, Fast) 0 demo_tls_w1)) as Hr
    by (vm_compute; eexists; reflexivity).
  assert (is_Some (fst <$> tls_run demo_tls_events demo_tls_w1)) as Hdef
    by (vm_compute; eexists; reflexivity).
  split; [exact Hr |].
  destruct (tls_run demo_tls_events demo_tls_w1) as [[ds w1] |] eqn:Hrun.
  - exact (@tls_words_isolated demo_platform (1%nat, Fast) demo_tls_events
             demo_tls_w1 ds w1 Hr Hrun).
  - destruct Hdef as [? Hdef]. discriminate Hdef.
Defined.

(** A run from the start of the process in which threads 1 and 2 ask for
    Fast handles, thread 1 twice. *)
Lemma make_prng_tls_once_per_thread_witness :
  let evs := Tls_make 1 false :: demo_tls_events in
  Z.of_nat (length evs) < 2 ^ 64 ∧
  match tls_run evs tls_world0 with
  | Some (ds, w) =>
      nonce (Tls, Fast) (tgl w) = Z.of_nat (size (fp w)) ∧
      nonce (Tls, Secure) (tgl w) = Z.of_nat (size (sp w)) ∧
      (∀ t, is_Some (fp w !! t) ↔ Tls_make t false ∈ evs) ∧
      (∀ t, is_Some (sp w !! t) ↔ Tls_make t true ∈ evs)
  | None => False
  end.
Proof.
  intros evs.
  assert (Z.of_nat (length evs) < 2 ^ 64) as Hlen by (by vm_compute).
  assert (is_Some (fst <$> tls_run evs tls_world0)) as Hdef
    by (vm_compute; eexists; reflexivity).
  split; [exact Hlen |].
  destruct (tls_run evs tls_world0) as [[ds w] |] eqn:Hrun.
  - exact (@make_prng_tls_once_per_thread demo_platform evs ds w Hlen Hrun).
  - destruct Hdef as [? Hdef]. discriminate Hdef.
Defined.

(** Taking one handle from the pool of [demo_w2], whose free list holds
    object 0. *)
Lemma prng_pool_acquires_reuse_witness :
  (reachable demo_w2 [] ∧ (1 ≤ length (free_list demo_w2))%nat) ∧
  ∃ w1, prng_pool_acquires 1 demo_w2 =
          Returns (take 1 (free_list demo_w2)) w1 ∧
        free_list w1 = drop 1 (free_list demo_w2) ∧
        gl w1 = gl demo_w2 ∧ length (mem w1) = length (mem demo_w2).
Proof.
  assert (1 ≤ length (free_list demo_w2))%nat as Hk by (cbn; lia).
  split; [split; [apply demo_w2_reachable | done] |].
  exact (@prng_pool_acquires_reuse demo_platform minstd_rand
           (@fast_engine demo_platform) demo_w2 [] 1%nat
           demo_w2_reachable Hk).
Defined.

(** The third pooled Fast generator on [demo_statics]: seeded with
    [220 + 0 + 2 + 1]. *)
Lemma fast_seed_progression_witness :
  (seed_d demo_statics = Some demo_data ∧
   0 ≤ nonce (NoTls, Fast) demo_statics ∧
   nonce (NoTls, Fast) demo_statics + Z.of_nat 2 + 1 < 2 ^ 64) ∧
  stream (NoTls, Fast) 3 (Nat.iter 2 (construct (NoTls, Fast)) demo_statics) =
  words minstd_rand_call 3
    (minstd_rand_ctor
       (wrap32 (sum_pv demo_data + nonce (NoTls, Fast) demo_statics
                + Z.of_nat 2 + 1))).
Proof.
  assert (0 ≤ nonce (NoTls, Fast) demo_statics) as H0 by (by vm_compute).
  assert (nonce (NoTls, Fast) demo_statics + Z.of_nat 2 + 1 < 2 ^ 64) as H2
    by (by vm_compute).
  split; [by split_and! |].
  exact (@fast_seed_progression demo_platform NoTls demo_statics demo_data
           2%nat 3%nat eq_refl H0 H2).
Defined.

(** C4, as first stated, fails.  Two handles are taken at the start of
    the process, on objects 0 and 1; the handle on 1 is released, then
    the handle on 0.  No acquisition came between the acquisition of 1
    and its release, nor after it; yet the next acquisition returns
    object 0, the one released last, not object 1. *)
Lemma pool_reuse_needs_last_release :
  match prng_pool_acquire demo_w0 with
  | Returns h0 w1 =>
      match prng_pool_acquire w1 with
      | Returns h1 w2 =>
          match ref_dtor h1 w2 with
          | Returns _ w3 =>
              match ref_dtor h0 w3 with
              | Returns _ w4 =>
                  match prng_pool_acquire w4 with
                  | Returns h w5 =>
                      h0 = 0%nat ∧ h1 = 1%nat ∧
                      free_list w4 = [0%nat; 1%nat] ∧
                      h = 0%nat ∧ h ≠ h1
                  | _ => False
                  end
              | _ => False
              end
          | _ => False
          end
      | _ => False
      end
  | _ => False
  end.
Proof. vm_compute. split_and!; [done | done | done | done | lia]. Qed.

(** In [demo_w3], where objects 0 and 1 are both held once: the handle
    on 0 is released and the next acquisition returns 0 again, with its
    generator still at 221. *)
Lemma pool_reuse_last_handle_witness :
  (reachable demo_w3 [1%nat; 0%nat] ∧
   mem demo_w3 !! 0%nat = Some (Pooled 1 (Minstd 221) None) ∧
   handles 0 [1%nat; 0%nat] = 1) ∧
  ∃ w3, ref_dtor 0 demo_w3 = Returns () w3 ∧
    gl w3 = gl demo_w3 ∧
    r_ <$> mem w3 !! 0%nat = Some (Minstd 221) ∧
    ∀ g, ∃ w4,
      prng_pool_acquire (World g (head_ w3) (mem w3)) = Returns 0%nat w4 ∧
      gl w4 = g ∧
      refcount 0 w4 = Some 1 ∧
      r_ <$> mem w4 !! 0%nat = Some (Minstd 221) ∧
      ∀ k, ∃ ys w5 w6,
        ref_calls k 0 w4 = Returns ys w5 ∧
        ref_calls k 0 demo_w3 = Returns ys w6.
Proof.
  assert (handles 0 [1%nat; 0%nat] = 1) as Hsole by reflexivity.
  split; [by split_and!; [apply demo_w3_reachable | |] |].
  exact (@pool_reuse_last_handle demo_platform minstd_rand
           (@fast_engine demo_platform) demo_w3 [1%nat; 0%nat] 0%nat _
           demo_w3_reachable eq_refl Hsole).
Defined.
